(** * igo: the concurrent DAG executor and its feature-flag store

    A shallow embedding of [core/feature_flag.py] and [core/graph_engine.py],
    and the properties of the engine stated over it.

    Conventions of the embedding.
    - Python [str] values are Rocq [string]s, the text in UTF-8.  Joining,
      testing for a prefix and splitting at an ASCII separator are the
      same on the bytes as on the characters.  [PyStr.lower] is [str.lower]
      on ASCII strings (the letters [A]..[Z] are mapped to [a]..[z]);
      [str.lower] also changes letters outside ASCII, so the flag store is
      first defined for any lower-casing function, and what is proved of
      it for every such function holds of [str.lower].
    - A [dict] is a [gmap]; a [list] is a [list]; a [set] of nodes is the
      list of its members in iteration order.
    - Objects live in a heap indexed by their identity; [==] on nodes is
      identity, as the class defines no [__eq__].
    - Code that can raise runs in a state monad whose computations return,
      raise, or never complete.  What the code awaits is decided by the
      event loop, which is a parameter of [run]: the barrier of the
      parents, the work function awaited as a task or in a thread, and the
      gathering of the tasks of the graph.  While a coroutine is suspended
      the other tasks run, and the loop decides what the coroutine is
      resumed with.  The properties hold for every event loop, and one
      loop that runs the tasks one after the other makes the engine
      executable.
    - The work functions, the predicates and the flag manager are
      parameters too: functions of what the engine passes them.  A work
      function may change [output]; a predicate reads it.
    - What iterating [os.environ.items()] yields during a pass of the flag
      store, and how the iteration ends, is a parameter of the pass.
    - Wall-clock readings are integers, in milliseconds. *)

From stdpp Require Import gmap strings list fin_maps sorting pretty.
From Stdlib Require Import Ascii String ZArith.

(** ** Python strings *)

Module PyStr.

(** [c.lower()] for one ASCII character; a character that is not an ASCII
    capital is left as it is. *)
Definition lower_char (c : ascii) : ascii :=
  let n := nat_of_ascii c in
  if (65 <=? n)%nat && (n <=? 90)%nat then ascii_of_nat (n + 32) else c.

(** [s.lower()] for an ASCII string [s].  On other strings [str.lower]
    does more: it is given as a parameter where that matters. *)
Fixpoint lower (s : string) : string :=
  match s with
  | EmptyString => EmptyString
  | String c s' => String (lower_char c) (lower s')
  end.

(** [s.startswith(p)] *)
Fixpoint startswith (p s : string) : bool :=
  match p, s with
  | EmptyString, _ => true
  | String a p', String b s' => if ascii_dec a b then startswith p' s' else false
  | String _ _, EmptyString => false
  end.

(** [s[n:]] *)
Fixpoint drop (n : nat) (s : string) : string :=
  match n, s with
  | O, _ => s
  | S n', String _ s' => drop n' s'
  | S _, EmptyString => EmptyString
  end.

(** [s[:n]] *)
Fixpoint take (n : nat) (s : string) : string :=
  match n, s with
  | O, _ => EmptyString
  | S n', String c s' => String c (take n' s')
  | S _, EmptyString => EmptyString
  end.

(** [s.find(sep)]: the index of the first occurrence of [sep], if any. *)
Fixpoint find (sep s : string) : option nat :=
  if startswith sep s then Some O
  else match s with
       | EmptyString => None
       | String _ s' => S <$> find sep s'
       end.

(** [s.split(sep, 1)] for a non-empty separator: the text before and after
    the first occurrence of [sep], or [s] alone when [sep] does not occur. *)
Definition split1 (sep s : string) : list string :=
  match find sep s with
  | Some i => [take i s; drop (i + String.length sep) s]
  | None => [s]
  end.

(** [s.isascii()] *)
Fixpoint isascii (s : string) : bool :=
  match s with
  | EmptyString => true
  | String c s' => (nat_of_ascii c <? 128)%nat && isascii s'
  end.

End PyStr.

(** ** Exceptions and outcomes *)

(** A raised Python exception. [exn_caught] tells whether the object is an
    instance of [Exception], the class the engine's handler names; the
    exceptions that derive from [BaseException] only ([KeyboardInterrupt],
    [SystemExit], [asyncio.CancelledError]) are not.  [str(e)] runs the
    [__str__] of the class: for [MkExn] it returns the text [exn_str], for
    [StrRaises] it raises [str_raises], and for [StrHangs] it never
    returns. *)
Inductive exn :=
| MkExn (exn_class : string) (exn_caught : bool) (exn_str : string)
| StrRaises (exn_class : string) (exn_caught : bool) (str_raises : exn)
| StrHangs (exn_class : string) (exn_caught : bool).

Definition exn_class (e : exn) : string :=
  match e with MkExn c _ _ | StrRaises c _ _ | StrHangs c _ => c end.

Definition exn_caught (e : exn) : bool :=
  match e with MkExn _ b _ | StrRaises _ b _ | StrHangs _ b => b end.

(** The text that [str(e)] returns, when it returns one. *)
Definition exn_str (e : exn) : string :=
  match e with MkExn _ _ s => s | _ => "" end.

(** How the evaluation of a piece of Python ends: it returns a value, it
    raises, or it never completes (a call that does not terminate, an
    [await] that is never resumed). *)
Inductive outcome (A : Type) : Type :=
| Returns (a : A)
| Raises (e : exn)
| Hangs.
Arguments Returns {A} a.
Arguments Raises {A} e.
Arguments Hangs {A}.

(** [str(e)] *)
Definition str (e : exn) : outcome string :=
  match e with
  | MkExn _ _ s => Returns s
  | StrRaises _ _ e' => Raises e'
  | StrHangs _ _ => Hangs
  end.

Definition IndexError (msg : string) : exn := MkExn "IndexError" true msg.

(** ** core/feature_flag.py *)

Module FeatureFlagMgr.

Definition FEATURE_FLAG_PREFIX : string := "feature_flag_".

(** [FeatureFlagMgr]: the [flags] dictionary.  The lock only serialises
    the accesses; every method below is one critical section. *)
Record t := { flags : gmap string bool }.

(** [FeatureFlagMgr.__init__] *)
Definition __init__ : t := {| flags := ∅ |}.

(** What the loop [for key, value in os.environ.items()] meets during one
    pass: the items that the iteration yields, in its order, and how the
    iteration ends.  The names are listed when the iteration starts and
    the value of each is read when its turn comes; when the variable has
    been unset in between, the read raises [KeyError], and the iteration
    ends there with this exception instead of ending normally. *)
Record iteration := {
  items : list (string * string);
  ending : option exn }.

Section Lower.

(** [str.lower] *)
Variable lower : string -> string.

(** [FeatureFlagMgr._as_boolean] *)
Definition _as_boolean_with (value : string) : bool :=
  let value := lower value in
  if bool_decide (value ∈ ["true"; "1"]) then true
  else if bool_decide (value ∈ ["false"; "0"]) then false
  else false.

(** The body of the loop of [_update_flags_from_env] for one item of
    [os.environ.items()].  The subscript [[1]] raises [IndexError] on a
    one-element list. *)
Definition update_flag_with (self : t) (item : string * string)
  : outcome t :=
  let '(key, value) := item in
  let lower_key := lower key in
  if PyStr.startswith FEATURE_FLAG_PREFIX lower_key then
    match PyStr.split1 FEATURE_FLAG_PREFIX lower_key !! 1%nat with
    | Some feature_name =>
        Returns {| flags := <[feature_name := _as_boolean_with value]> (flags self) |}
    | None => Raises (IndexError "list index out of range")
    end
  else Returns self.

(** The body of the loop, for the items that the iteration yields. *)
Fixpoint update_flags_with (self : t) (yielded : list (string * string))
  : outcome t :=
  match yielded with
  | [] => Returns self
  | item :: rest =>
      match update_flag_with self item with
      | Returns self' => update_flags_with self' rest
      | Raises e => Raises e
      | Hangs => Hangs
      end
  end.

(** [FeatureFlagMgr._update_flags_from_env]: the loop runs its body on
    each item, until the iteration ends or raises. *)
Definition _update_flags_from_env_with (self : t) (environ : iteration)
  : outcome t :=
  match update_flags_with self (items environ) with
  | Returns self' =>
      match ending environ with
      | None => Returns self'
      | Some e => Raises e
      end
  | Raises e => Raises e
  | Hangs => Hangs
  end.

(** The loop of the thread that [FeatureFlagMgr.start] starts:
    [while True: self._update_flags_from_env(); time.sleep(...)].  The
    loop does not end by itself; [snapshots] lists what the passes made so
    far have met, one after the other, and the result is the store they
    leave, or the exception that has ended the thread.  No pass has been
    made before [start]. *)
Fixpoint updater_with (self : t) (snapshots : list iteration) : outcome t :=
  match snapshots with
  | [] => Returns self
  | environ :: rest =>
      match _update_flags_from_env_with self environ with
      | Returns self' => updater_with self' rest
      | Raises e => Raises e
      | Hangs => Hangs
      end
  end.

End Lower.

(** The methods with the lower-casing of ASCII strings. *)
Definition _as_boolean : string -> bool := _as_boolean_with PyStr.lower.

Definition update_flag : t -> string * string -> outcome t :=
  update_flag_with PyStr.lower.

Definition _update_flags_from_env : t -> iteration -> outcome t :=
  _update_flags_from_env_with PyStr.lower.

Definition updater : t -> list iteration -> outcome t :=
  updater_with PyStr.lower.

(** [FeatureFlagMgr.is_enabled]: [self.flags.get(feature_name, False)] *)
Definition is_enabled (self : t) (feature_name : string) : bool :=
  default false (flags self !! feature_name).

End FeatureFlagMgr.

(** ** Python values, dictionaries and the clock *)

(** The values stored in records, outputs and keyword arguments. *)
Inductive pyval := VNone | VBool (b : bool) | VInt (z : Z) | VStr (s : string).

Abbreviation pydict := (gmap string pyval).
Abbreviation metrics := (gmap string string).

(** [f'{x:.3f}'] for an elapsed time; wall-clock readings are kept in
    milliseconds, the resolution the format retains. *)
Definition pad3 (n : Z) : string :=
  let s := pretty n in
  if (n <? 10)%Z then "00" +:+ s else if (n <? 100)%Z then "0" +:+ s else s.

Definition fmt3 (ms : Z) : string :=
  let a := Z.abs ms in
  (if (ms <? 0)%Z then "-" else "")
    +:+ pretty (a `div` 1000)%Z +:+ "." +:+ pad3 (a `mod` 1000)%Z.

(** ** A state monad with exceptions

    [M S A] is a computation over the mutable state [S]: it ends as an
    [outcome A] and leaves a state behind.  [try_except] is
    [try: ... except Exception as e: ...] and [try_finally] is
    [try: ... finally: ...]. *)

Definition M (S A : Type) : Type := S -> outcome A * S.

Definition ret {S A} (a : A) : M S A := fun s => (Returns a, s).

Definition bind {S A B} (c : M S A) (k : A -> M S B) : M S B :=
  fun s =>
    match c s with
    | (Returns a, s') => k a s'
    | (Raises e, s') => (Raises e, s')
    | (Hangs, s') => (Hangs, s')
    end.

Notation "'let*' x ':=' c 'in' k" := (bind c (fun x => k))
  (at level 10, x name, c at level 100, k at level 200).
Notation "c ';;' k" := (bind c (fun _ => k))
  (at level 100, k at level 200, right associativity).

Definition modify {S} (f : S -> S) : M S unit := fun s => (Returns tt, f s).

(** The result of evaluating an expression whose outcome is already known. *)
Definition eval {S A} (o : outcome A) : M S A := fun s => (o, s).

(** [except Exception] does not match an exception that is not an instance
    of [Exception]: such an exception goes on propagating. *)
Definition try_except {S A} (body : M S A) (handler : exn -> M S A) : M S A :=
  fun s =>
    match body s with
    | (Raises e, s') => if exn_caught e then handler e s' else (Raises e, s')
    | r => r
    end.

(** The [finally] clause runs whenever control leaves the body, by a return
    or by an exception; an exception of its own replaces the pending exit. *)
Definition try_finally {S A} (body : M S A) (finalizer : M S unit) : M S A :=
  fun s =>
    match body s with
    | (Hangs, s') => (Hangs, s')
    | (r, s') =>
        match finalizer s' with
        | (Returns _, s'') => (r, s'')
        | (Raises e, s'') => (Raises e, s'')
        | (Hangs, s'') => (Hangs, s'')
        end
    end.

(** [for x in xs: body(x)] *)
Fixpoint for_each {S A} (xs : list A) (body : A -> M S unit) : M S unit :=
  match xs with
  | [] => ret tt
  | x :: xs' => body x ;; for_each xs' body
  end.

(** ** core/graph_engine.py: the nodes *)

(** The identity of a node object. *)
Definition node_id := nat.

(** A work function: whether [iscoroutinefunction] holds of it, and what
    running it on [(record, output, **exe_kwargs)] does when it runs to its
    end by itself: it updates [output] in place and returns, raises, or
    never completes.  The engine does not call it in place: it awaits it
    as a task or in a thread, through the event loop. *)
Record work_function := {
  iscoroutinefunction : bool;
  call_work : pydict -> pydict -> pydict -> pydict * outcome pyval }.

(** The object passed as [feature_flag_manager]: what calling its
    [is_enabled] method with a flag name does. *)
Record flag_manager := { call_is_enabled : string -> outcome bool }.

(** A [FeatureFlagMgr] as a [feature_flag_manager] argument. *)
Definition flag_manager_of (mgr : FeatureFlagMgr.t) : flag_manager :=
  {| call_is_enabled := fun feature_name =>
       Returns (FeatureFlagMgr.is_enabled mgr feature_name) |}.

(** The attributes of a [ComputationalNode].  [children] is the set of child
    nodes, listed in its iteration order; [_event] is [None] or an
    [asyncio.Event] with its internal flag. *)
Record node := {
  name : string;
  parents : list node_id;
  feature_flag : option string;
  exe_function : option work_function;
  exe_kwargs : pydict;
  exe_condition : option (pydict -> pydict -> outcome bool);
  children : list node_id;
  _event : option bool }.

Definition set_children (cs : list node_id) (n : node) : node :=
  {| name := name n; parents := parents n; feature_flag := feature_flag n;
     exe_function := exe_function n; exe_kwargs := exe_kwargs n;
     exe_condition := exe_condition n; children := cs; _event := _event n |}.

Definition set_event (e : option bool) (n : node) : node :=
  {| name := name n; parents := parents n; feature_flag := feature_flag n;
     exe_function := exe_function n; exe_kwargs := exe_kwargs n;
     exe_condition := exe_condition n; children := children n; _event := e |}.

(** The heap of node objects. *)
Abbreviation heap := (gmap node_id node).

(** What a run of the engine acts on: the node objects, the [output]
    dictionary of the run, and the wall clock ([clock k] is the value of the
    [k]-th call of [time.time()]). *)
Record world := {
  nodes : heap;
  output : pydict;
  clock : nat -> Z;
  ticks : nat }.

Definition set_nodes (f : heap -> heap) (w : world) : world :=
  {| nodes := f (nodes w); output := output w; clock := clock w; ticks := ticks w |}.

Definition set_output (o : pydict) (w : world) : world :=
  {| nodes := nodes w; output := o; clock := clock w; ticks := ticks w |}.

Definition tick (w : world) : world :=
  {| nodes := nodes w; output := output w; clock := clock w; ticks := S (ticks w) |}.

(** The local variables of an activation of [run] (of a node or of the
    graph), next to the world. *)
Record frame := { the_world : world; perf_stats : metrics }.

Definition in_world (f : world -> world) (fr : frame) : frame :=
  {| the_world := f (the_world fr); perf_stats := perf_stats fr |}.

Definition set_perf_stats (f : metrics -> metrics) (fr : frame) : frame :=
  {| the_world := the_world fr; perf_stats := f (perf_stats fr) |}.

(** [time.time()] *)
Definition time_time : M frame Z :=
  fun fr => let w := the_world fr in (Returns (clock w (ticks w)), in_world tick fr).

(** asyncio's event loop, as the engine uses it.  A coroutine that awaits
    is suspended, the other tasks run and change the world, and the
    coroutine is resumed with the result of what it awaited, has an
    exception thrown into it, or is never resumed.
    - [wait_parents ps] is the [await] of [gather] over [p.event.wait()]
      for the parents [p] in [ps];
    - [create_task f record kwargs] is the [await] of
      [create_task(f(record, output, **kwargs))], and
      [to_thread f record kwargs] the [await] of
      [to_thread(f, record, output, **kwargs)]: what the work function
      and the tasks that run meanwhile make of the world, and what the
      coroutine is resumed with, which is for asyncio to decide and need
      not be what [f] returned or raised;
    - [gather_tasks ts] is the [await] of [asyncio.gather] over the tasks
      [ts], where the task of a node runs
      [node.run(record, output, feature_flag_manager)]; it evaluates to the
      results of the tasks, in the order of [ts]. *)
Record event_loop := {
  wait_parents : list node_id -> world -> outcome unit * world;
  create_task : work_function -> pydict -> pydict -> world -> outcome pyval * world;
  to_thread : work_function -> pydict -> pydict -> world -> outcome pyval * world;
  gather_tasks : list node_id -> world -> outcome (list metrics) * world }.

(** Reading the attributes of the node behind a reference. *)
Definition children_of (h : heap) (n : node_id) : list node_id :=
  match h !! n with Some x => children x | None => [] end.

Definition parents_of (h : heap) (n : node_id) : list node_id :=
  match h !! n with Some x => parents x | None => [] end.

(** [node.event.is_set()] without creating the event: an event that does not
    exist yet would be created unset. *)
Definition is_set (h : heap) (n : node_id) : bool :=
  match h !! n with Some x => default false (_event x) | None => false end.

Module ComputationalNode.

(** [ComputationalNode.__hash__]: the text that is hashed.  The class
    defines no [__eq__], so [==] on nodes, and with it membership in a
    list or in a set, is identity. *)
Definition __hash__ (n : node) : string :=
  name n +:+ "::" +:+ match feature_flag n with Some f => f | None => "None" end.

(** [set.add] on the set of children: an object that is in the set already
    is not added again.  Python does not say where a new member comes in the
    iteration order of a set; it is put last here, and the properties of the
    traversal are proved for every heap, so for every order. *)
Definition set_add (x : node_id) (s : list node_id) : list node_id :=
  if bool_decide (x ∈ s) then s else s ++ [x].

(** [ComputationalNode.add_child]: [self.children.add(node)] *)
Definition add_child (self child : node_id) (h : heap) : heap :=
  alter (fun n => set_children (set_add child (children n)) n) self h.

(** [ComputationalNode.__init__]: the new object (its identity is fresh)
    gets its attributes, then is added to the children of each parent. *)
Definition __init__ (h : heap) (name : string) (parents : option (list node_id))
    (feature_flag : option string) (exe_function : option work_function)
    (exe_kwargs : option pydict)
    (exe_condition : option (pydict -> pydict -> outcome bool))
  : node_id * heap :=
  let exe_kwargs := match exe_kwargs with None => ∅ | Some d => d end in
  let parents := match parents with None => [] | Some l => l end in
  let self := fresh (dom h) in
  let h := <[self := {| name := name; parents := parents;
                        feature_flag := feature_flag;
                        exe_function := exe_function;
                        exe_kwargs := exe_kwargs;
                        exe_condition := exe_condition;
                        children := []; _event := None |}]> h in
  let h := foldl (fun h parent => add_child parent self h) h parents in
  (self, alter (set_event None) self h).

(** The [event] property: the event is created on first use. *)
Definition event (self : node_id) : M frame unit :=
  modify (in_world (set_nodes (alter (fun n =>
    match _event n with
    | None => set_event (Some false) n
    | Some _ => n
    end) self))).

(** [self.event.set()] *)
Definition event_set (self : node_id) : M frame unit :=
  event self ;;
  modify (in_world (set_nodes (alter (set_event (Some true)) self))).

(** The object behind a reference. *)
Definition deref (self : node_id) : M frame node :=
  fun fr =>
    match nodes (the_world fr) !! self with
    | Some n => (Returns n, fr)
    | None => (Raises (MkExn "ReferenceError" false "no such object"), fr)
    end.

(** [perf_stats[key] = value] *)
Definition setitem (key value : string) : M frame unit :=
  modify (set_perf_stats (insert key value)).

(** [return perf_stats] *)
Definition return_perf_stats : M frame metrics :=
  fun fr => (Returns (perf_stats fr), fr).

(** The parent barrier (lines 88-90): the events of the parents are
    fetched, which creates those that do not exist, and awaited. *)
Definition await_parents (loop : event_loop) (ps : list node_id) : M frame unit :=
  match ps with
  | [] => ret tt
  | _ =>
      for_each ps event ;;
      fun fr =>
        let '(r, w) := wait_parents loop ps (the_world fr) in
        (r, in_world (fun _ => w) fr)
  end.

(** [await] of something that the event loop runs: the coroutine is
    resumed in the world that the loop leaves. *)
Definition await {A} (awaited : world -> outcome A * world) : M frame A :=
  fun fr =>
    let '(r, w) := awaited (the_world fr) in
    (r, in_world (fun _ => w) fr).

(** The dispatch of the work function (lines 106-111): a coroutine
    function is called and its coroutine awaited as a task, any other
    function is awaited in a worker thread; the result is discarded. *)
Definition dispatch (loop : event_loop) (n : node) (record : pydict)
  : M frame unit :=
  match exe_function n with
  | None => ret tt
  | Some f =>
      if iscoroutinefunction f
      then (let* _ := await (create_task loop f record (exe_kwargs n)) in ret tt)
      else (let* _ := await (to_thread loop f record (exe_kwargs n)) in ret tt)
  end.

(** Lines 106-115: the work, then the two timings. *)
Definition execute (loop : event_loop) (n : node) (record : pydict)
    (t_awaiting_parents t1 : Z) : M frame metrics :=
  dispatch loop n record ;;
  setitem (name n +:+ ".awaiting_parents") (fmt3 t_awaiting_parents) ;;
  let* t := time_time in
  setitem (name n +:+ ".execution") (fmt3 (t - t1)%Z) ;;
  return_perf_stats.

(** Lines 100-104: the predicate gate, before [rest]. *)
Definition condition_gate (n : node) (record : pydict) (rest : M frame metrics)
  : M frame metrics :=
  match exe_condition n with
  | None => rest
  | Some cond =>
      let* satisfied := (fun fr => (cond record (output (the_world fr)), fr)) in
      if negb satisfied then
        setitem (name n +:+ ".exe_condition") "False" ;;
        return_perf_stats
      else rest
  end.

(** Lines 94-98: the feature-flag gate, before [rest].  [None] and the
    empty string are false as a condition. *)
Definition feature_flag_gate (n : node) (feature_flag_manager : flag_manager)
    (rest : M frame metrics) : M frame metrics :=
  match feature_flag n with
  | None | Some EmptyString => rest
  | Some flag =>
      let* enabled := eval (call_is_enabled feature_flag_manager flag) in
      if negb enabled then
        setitem (name n +:+ ".feature_flag") "False" ;;
        return_perf_stats
      else rest
  end.

(** The [try] block of [run] (lines 87-115). *)
Definition attempt (n : node) (record : pydict)
    (feature_flag_manager : flag_manager) (loop : event_loop) : M frame metrics :=
  let* t0 := time_time in
  await_parents loop (parents n) ;;
  let* t := time_time in
  let t_awaiting_parents := (t - t0)%Z in
  let* t1 := time_time in
  feature_flag_gate n feature_flag_manager
    (condition_gate n record
       (execute loop n record t_awaiting_parents t1)).

(** The [except Exception as e] block of [run] (lines 117-119). *)
Definition on_exception (n : node) (e : exn) : M frame metrics :=
  let* message := eval (str e) in
  setitem (name n +:+ ".exception") message ;;
  return_perf_stats.

(** [ComputationalNode.run]; the [finally] block sets the event.  The
    attributes that [run] reads ([name], [parents], [feature_flag],
    [exe_function], [exe_kwargs], [exe_condition]) are not assigned after
    construction: they are read once, from the object as it is on entry. *)
Definition run (self : node_id) (record : pydict)
    (feature_flag_manager : flag_manager) (loop : event_loop) : M frame metrics :=
  let* n := deref self in
  modify (set_perf_stats (fun _ => ∅)) ;;
  try_finally
    (try_except (attempt n record feature_flag_manager loop) (on_exception n))
    (event_set self).

End ComputationalNode.

(** ** core/graph_engine.py: the graph *)

Module ComputationalGraph.

Record t := { root : node_id }.

(** [ComputationalGraph.__init__] *)
Definition __init__ (h : heap) : t * heap :=
  let '(r, h) := ComputationalNode.__init__ h "root" None None None None None in
  ({| root := r |}, h).

(** The lists [visited] and [queue] of [run], which [bfs] updates, and the
    list [tasks] of [bfs].  A task is named by the node whose [run] it
    executes. *)
Record bfs_state := {
  visited : list node_id;
  queue : list node_id;
  tasks : list node_id }.

(** The body of [for a_child in n.children]. *)
Definition visit (st : bfs_state) (a_child : node_id) : bfs_state :=
  if bool_decide (a_child ∈ visited st) then st
  else {| visited := visited st ++ [a_child];
          queue := queue st ++ [a_child];
          tasks := tasks st ++ [a_child] |}.

(** [while queue: n = queue.pop(0); for a_child in n.children: ...], for at
    most [fuel] iterations. *)
Fixpoint bfs_loop (fuel : nat) (h : heap) (st : bfs_state) : option bfs_state :=
  match queue st with
  | [] => Some st
  | n :: q =>
      match fuel with
      | O => None
      | S fuel' =>
          bfs_loop fuel' h
            (foldl visit {| visited := visited st; queue := q; tasks := tasks st |}
               (children_of h n))
      end
  end.

(** The references stored in the children sets of the heap. *)
Definition references (h : heap) : list node_id :=
  map_to_list h ≫= (fun kv => children kv.2).

(** [bfs(node)]; the loop is given one iteration for [node] and one for
    each reference of the heap, which is all it needs
    ([bfs_ends] below). *)
Definition bfs (h : heap) (node : node_id) : option bfs_state :=
  bfs_loop (S (List.length (references h))) h
    {| visited := [node]; queue := [node]; tasks := [] |}.

(** [perf_stats.update(measurement)] *)
Definition update (measurement : metrics) : M frame unit :=
  modify (set_perf_stats (fun perf_stats => measurement ∪ perf_stats)).

(** [ComputationalGraph.run] *)
Definition run (self : t) (record : pydict)
    (feature_flag_manager : flag_manager) (loop : event_loop)
  : M frame (metrics * pydict) :=
  modify (in_world (set_output ∅)) ;;
  let* t0 := time_time in
  let* st := (fun fr =>
    (match bfs (nodes (the_world fr)) (root self) with
     | Some st => Returns st
     | None => Hangs
     end, fr)) in
  let* measurements := (fun fr =>
    let '(r, w) := gather_tasks loop (tasks st) (the_world fr) in
    (r, in_world (fun _ => w) fr)) in
  modify (set_perf_stats (fun _ => ∅)) ;;
  for_each measurements update ;;
  let* t := time_time in
  ComputationalNode.setitem "dag.execution" (fmt3 (t - t0)%Z) ;;
  fun fr => (Returns (perf_stats fr, output (the_world fr)), fr).

End ComputationalGraph.

(** ** One event loop: the tasks run one after the other

    A loop of the simplest kind: a task runs as soon as the events of all
    its parents are set, and runs to its end, work function included,
    before the next one starts.  asyncio itself starts the other tasks that
    are ready while a work function is awaited.  This loop makes [run]
    executable on concrete graphs; the properties below are proved for
    every event loop, and name this one only in their examples. *)

Module Serial.

(** The barrier when no other task can run: it is passed at once when the
    event of every parent is set, and never otherwise. *)
Definition wait_now (ps : list node_id) (w : world) : outcome unit * world :=
  if forallb (is_set (nodes w)) ps then (Returns tt, w) else (Hangs, w).

(** The work function when no other task can run: it runs to its end on
    the [output] of the moment, and the coroutine is resumed with what it
    returned or raised.  (asyncio resumes it so for the exceptions of the
    tests; it treats [StopIteration] and the cancellation errors in ways
    of its own, which this loop does not follow.) *)
Definition work_now (f : work_function) (record kwargs : pydict) (w : world)
  : outcome pyval * world :=
  let '(out, r) := call_work f record (output w) kwargs in
  (r, set_output out w).

(** The loop of a coroutine that is awaited alone. *)
Definition alone : event_loop :=
  {| wait_parents := wait_now; create_task := work_now; to_thread := work_now;
     gather_tasks := fun _ w => (Hangs, w) |}.

Section Gather.
Variables (record : pydict) (feature_flag_manager : flag_manager).

(** The tasks with the result of those that have run. *)
Definition table := list (node_id * option (outcome metrics)).

(** One round over the tasks, in their order: a task that has not run
    and whose parents are done runs to its end. *)
Fixpoint round (ts : table) (w : world) : table * world :=
  match ts with
  | [] => ([], w)
  | (n, Some r) :: ts' =>
      let '(ts'', w') := round ts' w in ((n, Some r) :: ts'', w')
  | (n, None) :: ts' =>
      if forallb (is_set (nodes w)) (parents_of (nodes w) n) then
        let '(r, fr) :=
          ComputationalNode.run n record feature_flag_manager alone
            {| the_world := w; perf_stats := ∅ |} in
        let '(ts'', w') := round ts' (the_world fr) in
        ((n, Some r) :: ts'', w')
      else
        let '(ts'', w') := round ts' w in ((n, None) :: ts'', w')
  end.

Fixpoint rounds (k : nat) (ts : table) (w : world) : table * world :=
  match k with
  | O => (ts, w)
  | S k' => let '(ts', w') := round ts w in rounds k' ts' w'
  end.

(** What [gather] evaluates to: the exception of a task that raised, or
    the results in task order once every task has returned. *)
Fixpoint results (ts : table) : outcome (list metrics) :=
  match ts with
  | [] => Returns []
  | (_, Some (Raises e)) :: _ => Raises e
  | (_, Some (Returns m)) :: ts' =>
      match results ts' with
      | Returns ms => Returns (m :: ms)
      | r => r
      end
  | (_, _) :: ts' =>
      match results ts' with
      | Raises e => Raises e
      | _ => Hangs
      end
  end.

Definition gather (tasks : list node_id) (w : world)
  : outcome (list metrics) * world :=
  let '(ts, w') := rounds (List.length tasks) (map (fun n => (n, None)) tasks) w in
  (results ts, w').

Definition loop : event_loop :=
  {| wait_parents := wait_now; create_task := work_now; to_thread := work_now;
     gather_tasks := gather |}.

End Gather.

End Serial.

(** ** tests/graph_engine_test.py: work functions, nodes and graphs *)

Module Tests.

Definition ValueError (msg : string) : exn := MkExn "ValueError" true msg.
Definition TypeError (msg : string) : exn := MkExn "TypeError" true msg.
Definition SystemExit (msg : string) : exn := MkExn "SystemExit" false msg.

(** [sync_task_executor]: [results[identifier] = msg], then a sleep. *)
Definition sync_task_executor : work_function :=
  {| iscoroutinefunction := false;
     call_work := fun input_data results kwargs =>
       match kwargs !! "identifier", kwargs !! "msg" with
       | Some (VStr identifier), Some msg =>
           (<[identifier := msg]> results, Returns VNone)
       | _, _ => (results, Raises (TypeError "missing required argument"))
       end |}.

(** [async_task_executor]: the same as a coroutine function. *)
Definition async_task_executor : work_function :=
  {| iscoroutinefunction := true;
     call_work := call_work sync_task_executor |}.

(** [error_task_executor] *)
Definition error_task_executor : work_function :=
  {| iscoroutinefunction := false;
     call_work := fun _ results _ =>
       (results, Raises (ValueError "Intentional error occurred")) |}.

Definition kwargs (identifier msg : string) : pydict :=
  {[ "identifier" := VStr identifier; "msg" := VStr msg ]}.

Definition no_flags : flag_manager := flag_manager_of FeatureFlagMgr.__init__.

(** [test_linear_graph_execution]: [start_node], [middle_node] and
    [end_node] in a chain, and [graph.root.add_child(node1)]. *)
Definition graph : ComputationalGraph.t * heap := ComputationalGraph.__init__ ∅.
Definition node1 : node_id * heap :=
  ComputationalNode.__init__ graph.2 "start_node" (Some []) None
    (Some sync_task_executor) (Some (kwargs "start_node" "initiator")) None.
Definition node2 : node_id * heap :=
  ComputationalNode.__init__ node1.2 "middle_node" (Some [node1.1]) None
    (Some sync_task_executor) (Some (kwargs "middle_node" "progressing")) None.
Definition node3 : node_id * heap :=
  ComputationalNode.__init__ node2.2 "end_node" (Some [node2.1]) None
    (Some sync_task_executor) (Some (kwargs "end_node" "completion")) None.
Definition linear : heap :=
  ComputationalNode.add_child (ComputationalGraph.root graph.1) node1.1 node3.2.

(** A world with these objects, an empty [output] and a clock whose [k]-th
    reading is [k * k] milliseconds. *)
Definition world_of (h : heap) : world :=
  {| nodes := h; output := ∅; clock := fun k => (Z.of_nat k * Z.of_nat k)%Z; ticks := 0 |}.

Definition frame_of (h : heap) : frame :=
  {| the_world := world_of h; perf_stats := ∅ |}.

(** [test_conditional_execution]: a node with the predicate
    ['trigger_key' in data]. *)
Definition conditional_node : node_id * heap :=
  ComputationalNode.__init__ ∅ "conditional_node" (Some []) None
    (Some sync_task_executor)
    (Some (kwargs "conditional_node" "conditional execution"))
    (Some (fun data _ => Returns (bool_decide (is_Some (data !! "trigger_key"))))).

(** [test_basic_node] and [test_node_failure]. *)
Definition basic_node : node_id * heap :=
  ComputationalNode.__init__ ∅ "basic_node" (Some []) None
    (Some sync_task_executor) (Some (kwargs "basic_node" "test node")) None.

Definition error_node : node_id * heap :=
  ComputationalNode.__init__ ∅ "error_node" (Some []) None
    (Some error_task_executor) (Some (kwargs "error_node" "failure test")) None.

(** A node whose predicate calls [sys.exit]. *)
Definition exiting_node : node_id * heap :=
  ComputationalNode.__init__ ∅ "exiting_node" (Some []) None
    (Some sync_task_executor) (Some (kwargs "exiting_node" "never"))
    (Some (fun _ _ => Raises (SystemExit "1"))).

(** A node without a work function, behind the flag [x]. *)
Definition idle_node : node_id * heap :=
  ComputationalNode.__init__ ∅ "idle_node" (Some []) (Some "x") None None None.

(** A flag manager on which the flag [x] is enabled. *)
Definition flag_x : flag_manager :=
  flag_manager_of {| FeatureFlagMgr.flags := {[ "x" := true ]} |}.

(** Two distinct nodes with the same name and the same feature flag, both
    attached to the root. *)
Definition twin_graph : ComputationalGraph.t * heap := ComputationalGraph.__init__ ∅.
Definition twin1 : node_id * heap :=
  ComputationalNode.__init__ twin_graph.2 "twin" (Some []) (Some "x")
    (Some sync_task_executor) (Some (kwargs "first" "one")) None.
Definition twin2 : node_id * heap :=
  ComputationalNode.__init__ twin1.2 "twin" (Some []) (Some "x")
    (Some sync_task_executor) (Some (kwargs "second" "two")) None.
Definition twins : heap :=
  ComputationalNode.add_child (ComputationalGraph.root twin_graph.1) twin2.1
    (ComputationalNode.add_child (ComputationalGraph.root twin_graph.1) twin1.1
       twin2.2).

End Tests.

(** ** More scenarios: environments, collaborators that fail, nodes *)

Module Scenarios.

Definition KeyError (msg : string) : exn := MkExn "KeyError" true msg.

(** The environment of [FeatureFlagMgrTest.setUp], iterated to its end. *)
Definition environ : FeatureFlagMgr.iteration :=
  {| FeatureFlagMgr.items :=
       [ ("feature_flag_alpha_feature", "True");
         ("feature_flag_beta_feature", "false");
         ("feature_flag_experiment", "1") ];
     FeatureFlagMgr.ending := None |}.

(** The same environment when [tearDown] removes [feature_flag_beta_feature]
    after the pass has listed the names and read the first value. *)
Definition environ_torn_down : FeatureFlagMgr.iteration :=
  {| FeatureFlagMgr.items := [ ("feature_flag_alpha_feature", "True") ];
     FeatureFlagMgr.ending := Some (KeyError "'feature_flag_beta_feature'") |}.

(** An event loop whose barrier never opens, and that awaits the work
    functions as [Serial.alone] does. *)
Definition closed_barrier : event_loop :=
  {| wait_parents := fun _ w => (Hangs, w);
     create_task := Serial.work_now; to_thread := Serial.work_now;
     gather_tasks := fun _ w => (Hangs, w) |}.

(** A work function that raises an exception whose [__str__] does not
    return a string, so that [str(e)] raises [TypeError]. *)
Definition mute_executor : work_function :=
  {| iscoroutinefunction := false;
     call_work := fun _ results _ =>
       (results,
        Raises (StrRaises "MuteError" true
                  (Tests.TypeError "__str__ returned non-string (type int)"))) |}.

Definition mute_node : node_id * heap :=
  ComputationalNode.__init__ ∅ "mute_node" (Some []) None
    (Some mute_executor) None None.

(** A flag manager whose [is_enabled] raises. *)
Definition broken_flags : flag_manager :=
  {| call_is_enabled := fun _ => Raises (Tests.ValueError "no flags today") |}.

(** A work function that writes an entry of [results] and then raises. *)
Definition half_done_executor : work_function :=
  {| iscoroutinefunction := true;
     call_work := fun _ results _ =>
       (<["partial" := VInt 1]> results, Raises (Tests.ValueError "late failure")) |}.

Definition half_done_node : node_id * heap :=
  ComputationalNode.__init__ ∅ "half_done" (Some []) None
    (Some half_done_executor) None None.

(** A node behind a flag that is written with a capital letter. *)
Definition shouting_node : node_id * heap :=
  ComputationalNode.__init__ ∅ "shouting_node" (Some []) (Some "Experiment")
    (Some Tests.sync_task_executor) (Some (Tests.kwargs "shouting_node" "loud")) None.

End Scenarios.

(** ** The vocabulary of the properties *)

(** [u] is an upper-case ASCII letter and [l] is its lower-case form. *)
Definition upper_lower (u l : ascii) : Prop :=
  ∃ k : nat, (k < 26)%nat ∧ u = ascii_of_nat (65 + k) ∧ l = ascii_of_nat (97 + k).

(** Two characters that differ at most by their case. *)
Definition same_char_ci (c d : ascii) : Prop :=
  c = d ∨ upper_lower c d ∨ upper_lower d c.

(** Two strings that are equal up to the case of their letters. *)
Inductive eq_ignore_case : string -> string -> Prop :=
| eic_nil : eq_ignore_case "" ""
| eic_cons c d s t :
    same_char_ci c d -> eq_ignore_case s t ->
    eq_ignore_case (String c s) (String d t).

(** [path h root k x]: [x] is at the end of a chain of [k] child references
    that starts at [root]. *)
Inductive path (h : heap) (root : node_id) : nat -> node_id -> Prop :=
| path_root : path h root 0 root
| path_child k n c :
    path h root k n -> c ∈ children_of h n -> path h root (S k) c.

(** The nodes reachable from [root]. *)
Definition reachable (h : heap) (root x : node_id) : Prop :=
  ∃ k, path h root k x.

(** [l] lists nodes by distance from [root]: a node of [l] is never farther
    from [root] than a node listed after it. *)
Definition breadth_first (h : heap) (root : node_id) (l : list node_id) : Prop :=
  ∀ (i j : nat) x y, l !! i = Some x → l !! j = Some y → (i ≤ j)%nat →
    ∀ k, path h root k y → ∃ k', (k' ≤ k)%nat ∧ path h root k' x.

(** *** The invariant of the traversal *)

(** A node with its distance from the root: [p.2] is the length of a
    shortest chain of child references from [root] to [p.1]. *)
Definition exact (h : heap) (root : node_id) (p : node_id * nat) : Prop :=
  path h root p.2 p.1 ∧ ∀ k, path h root k p.1 → (p.2 ≤ k)%nat.

Definition by_level (a b : node_id * nat) : Prop := (a.2 ≤ b.2)%nat.

(** The invariant of the loop of [bfs]: [dl] are the nodes that were taken
    from the queue and [ql] the nodes of the queue, in order, each with its
    distance from the root. *)
Record inv (h : heap) (root : node_id) (dl ql : list (node_id * nat))
    (st : ComputationalGraph.bfs_state) : Prop := {
  inv_visited : ComputationalGraph.visited st = (dl ++ ql).*1;
  inv_queue : ComputationalGraph.queue st = ql.*1;
  inv_tasks : ComputationalGraph.visited st = root :: ComputationalGraph.tasks st;
  inv_nodup : NoDup (ComputationalGraph.visited st);
  inv_refs : ∀ x, x ∈ ComputationalGraph.visited st →
                  x ∈ root :: ComputationalGraph.references h;
  inv_exact : Forall (exact h root) (dl ++ ql);
  inv_sorted : StronglySorted by_level (dl ++ ql);
  inv_front : ∀ a hd, a ∈ dl ++ ql → head ql = Some hd → (a.2 ≤ S hd.2)%nat;
  inv_closed : ∀ n c, n ∈ dl.*1 → c ∈ children_of h n →
                      c ∈ ComputationalGraph.visited st }.
Arguments inv_visited {h root dl ql st} _.
Arguments inv_queue {h root dl ql st} _.
Arguments inv_tasks {h root dl ql st} _.
Arguments inv_nodup {h root dl ql st} _.
Arguments inv_refs {h root dl ql st} _.
Arguments inv_exact {h root dl ql st} _.
Arguments inv_sorted {h root dl ql st} _.
Arguments inv_front {h root dl ql st} _.
Arguments inv_closed {h root dl ql st} _.

(** [queue.pop(0)] on a queue that is not empty. *)
Definition pop (st : ComputationalGraph.bfs_state) : ComputationalGraph.bfs_state :=
  {| ComputationalGraph.visited := ComputationalGraph.visited st;
     ComputationalGraph.queue := tail (ComputationalGraph.queue st);
     ComputationalGraph.tasks := ComputationalGraph.tasks st |}.

(** The four collaborators of a run of a node. *)
Inductive source := ParentBarrier | FlagCheck | Predicate | Work.

(** The ways a run of a node goes: the work is done (or there is none to
    do), a gate skips it, a collaborator raises, or a collaborator never
    completes. *)
Inductive exit_path :=
| Success
| FlagSkip
| PredicateSkip
| Failure (src : source) (e : exn)
| Unfinished (src : source).

(** The world the parent barrier of [n] leaves, in a run that starts in [w]:
    the barrier is entered after the first reading of the clock. *)
Definition after_barrier (loop : event_loop) (n : node) (w : world) : outcome world :=
  match ComputationalNode.await_parents loop (parents n)
          {| the_world := tick w; perf_stats := ∅ |} with
  | (Returns _, fr) => Returns (the_world fr)
  | (Raises e, _) => Raises e
  | (Hangs, _) => Hangs
  end.

(** What the feature-flag check answers, when the node has a flag. *)
Definition flag_outcome (fm : flag_manager) (n : node) : option (outcome bool) :=
  match feature_flag n with
  | None | Some EmptyString => None
  | Some flag => Some (call_is_enabled fm flag)
  end.

(** What the predicate answers on [output], when the node has one. *)
Definition predicate_outcome (record : pydict) (n : node) (out : pydict)
  : option (outcome bool) :=
  match exe_condition n with
  | None => None
  | Some cond => Some (cond record out)
  end.

(** The world in which the gates are evaluated and the work function is
    dispatched, when the barrier has left [w]: the clock has been read
    twice since. *)
Definition at_gates (w : world) : world := tick (tick w).

(** The [await] of the work function [f], as [dispatch] chooses it. *)
Definition await_work (loop : event_loop) (f : work_function)
  : pydict -> pydict -> world -> outcome pyval * world :=
  if iscoroutinefunction f then create_task loop f else to_thread loop f.

(** What the coroutine is resumed with after the [await] of the work
    function, dispatched in the world [w], when the node has one. *)
Definition work_outcome (loop : event_loop) (record : pydict) (n : node)
    (w : world) : option (outcome pyval) :=
  match exe_function n with
  | None => None
  | Some f => Some (await_work loop f record (exe_kwargs n) w).1
  end.

(** The way a run of [n] goes once the barrier is passed and has left the
    world [w]: flag gate, predicate gate, work, in this order. *)
Definition gates_path (loop : event_loop) (fm : flag_manager) (record : pydict)
    (n : node) (w : world) : exit_path :=
  match flag_outcome fm n with
  | Some (Raises e) => Failure FlagCheck e
  | Some Hangs => Unfinished FlagCheck
  | Some (Returns false) => FlagSkip
  | _ =>
      match predicate_outcome record n (output w) with
      | Some (Raises e) => Failure Predicate e
      | Some Hangs => Unfinished Predicate
      | Some (Returns false) => PredicateSkip
      | _ =>
          match work_outcome loop record n (at_gates w) with
          | Some (Raises e) => Failure Work e
          | Some Hangs => Unfinished Work
          | _ => Success
          end
      end
  end.

(** The way a run of [n] goes from the world [w]: the barrier first. *)
Definition path_taken (loop : event_loop) (fm : flag_manager) (record : pydict)
    (n : node) (w : world) : exit_path :=
  match after_barrier loop n w with
  | Raises e => Failure ParentBarrier e
  | Hangs => Unfinished ParentBarrier
  | Returns w' => gates_path loop fm record n w'
  end.

(** Whether an evaluation ends, by a return or by an exception. *)
Definition exits {A} (o : outcome A) : bool :=
  match o with Hangs => false | _ => true end.

(** [w'] is a world that the loop leaves when it has suspended the run of
    a node in [w], at the barrier or at the [await] of the work function. *)
Definition resumes (loop : event_loop) (w w' : world) : Prop :=
  (∃ ps, w' = (wait_parents loop ps w).2)
  ∨ (∃ f record kwargs, w' = (create_task loop f record kwargs w).2)
  ∨ (∃ f record kwargs, w' = (to_thread loop f record kwargs w).2).

(** An event loop does not destroy objects: a node that exists when a
    coroutine is suspended exists when it is resumed. *)
Definition keeps_objects (loop : event_loop) : Prop :=
  ∀ w w' x, resumes loop w w' →
            is_Some (nodes w !! x) → is_Some (nodes w' !! x).

(** *** Frames and results of a run *)

(** Every node of [fr] is a node of [fr']. *)
Definition extends (fr fr' : frame) : Prop :=
  ∀ x, is_Some (nodes (the_world fr) !! x) → is_Some (nodes (the_world fr') !! x).

Definition keeps {A} (c : M frame A) : Prop := ∀ fr, extends fr (c fr).2.

(** The result of a run that has reached its gates with no metric
    recorded, and the metrics left behind when a collaborator raises. *)
Definition result_on (n : node) (p : exit_path) (t_awaiting_parents : Z)
    (r : outcome metrics * frame) : Prop :=
  match p with
  | Success =>
      ∃ b, r.1 = Returns (<[name n +:+ ".execution" := b]>
                 (<[name n +:+ ".awaiting_parents" := fmt3 t_awaiting_parents]> ∅))
  | FlagSkip => r.1 = Returns (<[name n +:+ ".feature_flag" := "False"]> ∅)
  | PredicateSkip => r.1 = Returns (<[name n +:+ ".exe_condition" := "False"]> ∅)
  | Failure _ e => r.1 = Raises e ∧ perf_stats r.2 = ∅
  | Unfinished _ => r.1 = Hangs
  end.

(** *** Environments and stores *)

(** The value that the items [yielded] leave under [name], with [lower]
    as the lower-casing: the parsed value of the last variable whose
    lower-cased name is the prefix followed by [name], when there is one. *)
Fixpoint designated (lower : string → string) (yielded : list (string * string))
    (name : string) : option bool :=
  match yielded with
  | [] => None
  | (key, value) :: rest =>
      match designated lower rest name with
      | Some b => Some b
      | None =>
          if decide (lower key = FeatureFlagMgr.FEATURE_FLAG_PREFIX +:+ name)
          then Some (FeatureFlagMgr._as_boolean_with lower value) else None
      end
  end.

(** A lower-casing that is [str.lower] on ASCII strings. *)
Definition lowers_ascii (lower : string → string) : Prop :=
  ∀ s, PyStr.isascii s = true → lower s = PyStr.lower s.

(** Every name of the store is in lower case. *)
Definition lowercase_keys (self : FeatureFlagMgr.t) : Prop :=
  ∀ name, is_Some (FeatureFlagMgr.flags self !! name) → PyStr.lower name = name.

(** *** Heaps *)

(** What [add_child] makes of the parent object. *)
Definition with_child (child : node_id) (n : node) : node :=
  set_children (ComputationalNode.set_add child (children n)) n.

(** No chain of child references leads from a node back to it. *)
Definition acyclic (h : heap) : Prop := ∀ x k, ¬ path h x (S k) x.

(** The heap without the events: what the constructors have built. *)
Definition structure (h : heap) : heap := set_event None <$> h.

(** An event loop that touches nothing but events while a coroutine is
    suspended. *)
Definition only_events (loop : event_loop) : Prop :=
  ∀ w w', resumes loop w w' → structure (nodes w') = structure (nodes w).

(** An event loop under which no event is cleared while a coroutine is
    suspended. *)
Definition keeps_events (loop : event_loop) : Prop :=
  ∀ w w' x, resumes loop w w' →
            is_set (nodes w) x = true → is_set (nodes w') x = true.

(** [c] takes every world to a world that is [R]-related to it. *)
Definition preserves {A} (R : world → world → Prop) (c : M frame A) : Prop :=
  ∀ fr, R (the_world fr) (the_world (c fr).2).

(** *** The output of a run *)

(** The [output] that a computation leaves. *)
Definition out_of {A} (r : outcome A * frame) : pydict := output (the_world r.2).

(** The [output] that the [await] of the work function of [n], dispatched
    in the world [w], leaves. *)
Definition work_output (loop : event_loop) (record : pydict) (n : node)
    (w : world) : pydict :=
  match exe_function n with
  | None => output w
  | Some f => output (await_work loop f record (exe_kwargs n) w).2
  end.

(** The paths on which the work function is dispatched. *)
Definition reaches_work (p : exit_path) : bool :=
  match p with
  | Success | Failure Work _ | Unfinished Work => true
  | _ => false
  end.

(** ** Properties of the feature-flag store *)

Section PyStrFacts.
Import PyStr.

Lemma lower_char_upper k :
  (k < 26)%nat -> lower_char (ascii_of_nat (65 + k)) = ascii_of_nat (97 + k).
Proof.
  intros Hk. unfold lower_char.
  rewrite nat_ascii_embedding by lia.
  replace ((65 <=? 65 + k)%nat && (65 + k <=? 90)%nat) with true.
  - f_equal. lia.
  - symmetry. apply andb_true_iff. split; apply Nat.leb_le; lia.
Qed.

Lemma lower_char_lower k :
  (k < 26)%nat -> lower_char (ascii_of_nat (97 + k)) = ascii_of_nat (97 + k).
Proof.
  intros Hk. unfold lower_char.
  rewrite nat_ascii_embedding by lia.
  replace ((65 <=? 97 + k)%nat && (97 + k <=? 90)%nat) with false; [done|].
  symmetry. apply andb_false_iff. right. apply Nat.leb_gt. lia.
Qed.

(** [lower_char] either leaves a character alone, or the character is an
    upper-case letter and the result its lower-case form. *)
Lemma lower_char_cases c :
  (lower_char c = c ∧ ¬ (65 ≤ nat_of_ascii c ≤ 90)%nat)
  ∨ upper_lower c (lower_char c).
Proof.
  unfold lower_char.
  destruct ((65 <=? nat_of_ascii c)%nat && (nat_of_ascii c <=? 90)%nat) eqn:E.
  - right. apply andb_true_iff in E as [E1%Nat.leb_le E2%Nat.leb_le].
    exists (nat_of_ascii c - 65)%nat. split; [lia|]. split.
    + replace (65 + (nat_of_ascii c - 65))%nat with (nat_of_ascii c) by lia.
      by rewrite ascii_nat_embedding.
    + f_equal. lia.
  - left. split; [done|]. intros [H1 H2].
    apply andb_false_iff in E as [E%Nat.leb_gt|E%Nat.leb_gt]; lia.
Qed.

Lemma upper_lower_inj_l u1 u2 l : upper_lower u1 l -> upper_lower u2 l -> u1 = u2.
Proof.
  intros (k1 & ? & -> & ->) (k2 & ? & -> & E).
  apply (f_equal nat_of_ascii) in E.
  rewrite !nat_ascii_embedding in E by lia. f_equal. lia.
Qed.

Lemma upper_lower_lower u l : upper_lower u l -> lower_char u = l ∧ lower_char l = l.
Proof.
  intros (k & ? & -> & ->). by rewrite lower_char_upper, lower_char_lower.
Qed.

(** Lower-casing identifies exactly the characters that differ by case. *)
Lemma lower_char_eq_iff c d : lower_char c = lower_char d ↔ same_char_ci c d.
Proof.
  split.
  - intros E. unfold same_char_ci.
    destruct (lower_char_cases c) as [[Hc Hnc]|Hc], (lower_char_cases d) as [[Hd Hnd]|Hd].
    + left. congruence.
    + right. right. by rewrite <- E, Hc in Hd.
    + right. left. by rewrite E, Hd in Hc.
    + left. rewrite <- E in Hd. by apply (upper_lower_inj_l _ _ (lower_char c)).
  - intros [->|[H|H]]; [done| |].
    + apply upper_lower_lower in H as [-> ->]. done.
    + apply upper_lower_lower in H as [-> ->]. done.
Qed.

Lemma lower_eq_iff s t : lower s = lower t ↔ eq_ignore_case s t.
Proof.
  split.
  - revert t. induction s as [|c s IH]; intros [|d t] E; simpl in E; try done.
    + constructor.
    + injection E as E1 E2. constructor; [by apply lower_char_eq_iff | by apply IH].
  - induction 1 as [|c d s t Hc _ IH]; [done|]. simpl.
    f_equal; [by apply lower_char_eq_iff | done].
Qed.

Lemma startswith_app p r : startswith p (p +:+ r) = true.
Proof. induction p as [|a p IH]; simpl; [done|]. by destruct (ascii_dec a a). Qed.

Lemma startswith_iff p s : startswith p s = true ↔ ∃ r, s = p +:+ r.
Proof.
  split.
  - revert s. induction p as [|a p IH]; intros s H; simpl in *.
    + by exists s.
    + destruct s as [|b s]; [done|]. destruct (ascii_dec a b) as [->|]; [|done].
      destruct (IH _ H) as [r ->]. by exists r.
  - intros [r ->]. apply startswith_app.
Qed.

Lemma drop_app p r : drop (String.length p) (p +:+ r) = r.
Proof. induction p as [|a p IH]; simpl; [by destruct r | done]. Qed.

(** Splitting a string once at a separator it starts with leaves the empty
    string and the rest. *)
Lemma split1_prefix p r : split1 p (p +:+ r) = [""; r].
Proof.
  unfold split1.
  assert (find p (p +:+ r) = Some O) as ->.
  { destruct p as [|a p]; simpl.
    - by destruct r.
    - destruct (ascii_dec a a); [|done]. by rewrite startswith_app. }
  simpl. by rewrite drop_app.
Qed.

Lemma lower_drop n s : lower (drop n s) = drop n (lower s).
Proof. revert s. induction n as [|n IH]; intros [|c s]; simpl; auto. Qed.

End PyStrFacts.

Section FlagStore.
Import PyStr FeatureFlagMgr.

Lemma as_boolean_true_iff value :
  _as_boolean value = true ↔ eq_ignore_case value "true" ∨ eq_ignore_case value "1".
Proof.
  unfold _as_boolean, _as_boolean_with. rewrite <- !lower_eq_iff. simpl lower.
  replace (String (lower_char "t") (String (lower_char "r")
            (String (lower_char "u") (String (lower_char "e") ""))))
    with "true" by reflexivity.
  replace (String (lower_char "1") "") with "1" by reflexivity.
  assert (lower value ∈ ["true"; "1"] ↔ lower value = "true" ∨ lower value = "1") as Hin.
  { rewrite !elem_of_cons, elem_of_nil. tauto. }
  case_bool_decide as H.
  - split; [|done]. intros _. by apply Hin.
  - case_bool_decide; (split; [done|]); intros E; by apply Hin in E.
Qed.

(** C7.  The flag-value parser is a total function from strings to
    booleans (it has no raising outcome): a value that is ["true"] or
    ["1"] up to case parses to [true], a value that is ["false"] or ["0"]
    up to case parses to [false], and every other value parses to
    [false]. *)
Theorem as_boolean_total (value : string) :
  (eq_ignore_case value "true" ∨ eq_ignore_case value "1" →
     _as_boolean value = true)
  ∧ (eq_ignore_case value "false" ∨ eq_ignore_case value "0" →
     _as_boolean value = false)
  ∧ (¬ (eq_ignore_case value "true" ∨ eq_ignore_case value "1") →
     _as_boolean value = false).
Proof.
  split; [by intros ?%as_boolean_true_iff|].
  assert (¬ (eq_ignore_case value "true" ∨ eq_ignore_case value "1") →
          _as_boolean value = false) as Hother.
  { intros Hn. destruct (_as_boolean value) eqn:E; [|done].
    by apply as_boolean_true_iff in E. }
  split; [|done].
  intros H. apply Hother. rewrite <- !lower_eq_iff in *.
  intros [E|E]; destruct H as [H|H]; rewrite E in H; discriminate H.
Qed.

Lemma as_boolean_total_witness :
  _as_boolean "TrUe" = true ∧ _as_boolean "FALSE" = false
  ∧ _as_boolean "yes" = false.
Proof.
  split; [|split].
  - apply (proj1 (as_boolean_total "TrUe")). left. apply lower_eq_iff. reflexivity.
  - apply (proj1 (proj2 (as_boolean_total "FALSE"))). left. apply lower_eq_iff. reflexivity.
  - apply (proj2 (proj2 (as_boolean_total "yes"))). rewrite <- !lower_eq_iff.
    intros [E|E]; discriminate E.
Defined.

End FlagStore.

(** The store for any lower-casing function, [str.lower] among them. *)
Section FlagStoreLower.
Import PyStr FeatureFlagMgr.
Variable lower : string → string.

(** One variable whose lower-cased name begins with the prefix. *)
Lemma update_flag_prefixed self key value suffix :
  lower key = FEATURE_FLAG_PREFIX +:+ suffix →
  update_flag_with lower self (key, value)
  = Returns {| flags := <[suffix := _as_boolean_with lower value]> (flags self) |}.
Proof.
  intros E. unfold update_flag_with. rewrite E, startswith_app, split1_prefix. done.
Qed.

(** One variable whose lower-cased name does not begin with the prefix. *)
Lemma update_flag_other self key value :
  (∀ suffix, lower key ≠ FEATURE_FLAG_PREFIX +:+ suffix) →
  update_flag_with lower self (key, value) = Returns self.
Proof.
  intros Hn. unfold update_flag_with.
  destruct (startswith _ _) eqn:E; [|done].
  apply startswith_iff in E as [r E]. by destruct (Hn r).
Qed.

Lemma update_flag_cases (key : string) :
  (∃ suffix, lower key = FEATURE_FLAG_PREFIX +:+ suffix)
  ∨ (∀ suffix, lower key ≠ FEATURE_FLAG_PREFIX +:+ suffix).
Proof.
  destruct (startswith FEATURE_FLAG_PREFIX (lower key)) eqn:E.
  - left. by apply startswith_iff.
  - right. intros r Hr. rewrite Hr, startswith_app in E. done.
Qed.

(** The body of the loop never raises: over the items yielded it leaves
    under each name what they designate for it, or else what was there. *)
Lemma update_flags_lookup yielded : ∀ self,
  ∃ self', update_flags_with lower self yielded = Returns self'
    ∧ ∀ name, flags self' !! name
              = match designated lower yielded name with
                | Some b => Some b
                | None => flags self !! name
                end.
Proof.
  induction yielded as [|[key value] yielded IH]; intros self;
    cbn [update_flags_with designated].
  - by exists self.
  - destruct (update_flag_cases key) as [[suffix E]|E].
    + rewrite (update_flag_prefixed _ _ _ _ E).
      destruct (IH {| flags := <[suffix := _as_boolean_with lower value]> (flags self) |})
        as (self' & -> & Hl).
      exists self'. split; [done|]. intros name. rewrite Hl.
      destruct (designated lower yielded name); [done|]. simpl.
      rewrite E. case_decide as Hd.
      * apply (inj (String.app FEATURE_FLAG_PREFIX)) in Hd as ->.
        apply lookup_insert_eq.
      * apply lookup_insert_ne. by intros ->.
    + rewrite (update_flag_other _ _ _ E).
      destruct (IH self) as (self' & -> & Hl).
      exists self'. split; [done|]. intros name. rewrite Hl.
      destruct (designated lower yielded name); [done|].
      case_decide as Hd; [by destruct (E name)|done].
Qed.

(** A pass ends as the iteration does. *)
Lemma refresh_outcome self environ :
  ∃ self', update_flags_with lower self (items environ) = Returns self'
    ∧ _update_flags_from_env_with lower self environ
      = match ending environ with
        | None => Returns self'
        | Some e => Raises e
        end.
Proof.
  destruct (update_flags_lookup (items environ) self) as (self' & Hrun & _).
  exists self'. split; [done|]. unfold _update_flags_from_env_with. by rewrite Hrun.
Qed.

Lemma designated_Some yielded name b :
  designated lower yielded name = Some b →
  ∃ key value, (key, value) ∈ yielded
               ∧ lower key = FEATURE_FLAG_PREFIX +:+ name
               ∧ b = _as_boolean_with lower value.
Proof.
  induction yielded as [|[key value] yielded IH]; cbn [designated]; [done|].
  destruct (designated lower yielded name) as [b'|].
  - intros [= ->]. destruct IH as (k & v & Hin & E & ->); [done|].
    exists k, v. split; [by right | done].
  - case_decide as E; [|done]. intros [= <-].
    exists key, value. split; [by left | done].
Qed.

Lemma designated_None yielded name :
  (∀ key value, (key, value) ∈ yielded →
     lower key ≠ FEATURE_FLAG_PREFIX +:+ name) →
  designated lower yielded name = None.
Proof.
  intros Hn. destruct (designated lower yielded name) as [b|] eqn:E; [|done].
  apply designated_Some in E as (k & v & Hin & E & _). by destruct (Hn k v).
Qed.

(** The last variable that designates a name is the one that counts. *)
Lemma designated_last before key value after suffix :
  lower key = FEATURE_FLAG_PREFIX +:+ suffix →
  (∀ k v, (k, v) ∈ after → lower k ≠ FEATURE_FLAG_PREFIX +:+ suffix) →
  designated lower (before ++ (key, value) :: after) suffix
  = Some (_as_boolean_with lower value).
Proof.
  intros E Hafter. induction before as [|[k0 v0] before IH]; cbn [app designated].
  - rewrite (designated_None after suffix Hafter). by rewrite decide_True.
  - by rewrite IH.
Qed.

Lemma flags_eq (s1 s2 : t) : (∀ name, flags s1 !! name = flags s2 !! name) → s1 = s2.
Proof. destruct s1, s2. simpl. intros H. f_equal. by apply map_eq. Qed.

End FlagStoreLower.

Section FlagStoreClaims.
Import PyStr FeatureFlagMgr.

Lemma isascii_String c s :
  isascii (String c s) = true ↔ (nat_of_ascii c < 128)%nat ∧ isascii s = true.
Proof. simpl. rewrite andb_true_iff, Nat.ltb_lt. done. Qed.

(** A string that is an ASCII string up to case is an ASCII string. *)
Lemma eq_ignore_case_isascii s t :
  eq_ignore_case s t → isascii t = true → isascii s = true.
Proof.
  induction 1 as [|c d s t Hc _ IH]; [done|].
  rewrite !isascii_String. intros [Hd Ht]. split; [|by apply IH].
  destruct Hc as [->|[(k & Hk & -> & ->)|(k & Hk & -> & ->)]]; [done|..];
    rewrite nat_ascii_embedding by lia; lia.
Qed.

(** C8.  In a refresh pass, with [str.lower] or any other function as the
    lower-casing: the step for a variable whose lower-cased name begins
    with ["feature_flag_"] stores its parsed value under the rest of the
    lower-cased name, and the step for any other variable leaves the store
    as it is.  A pass whose iteration over the environment runs to its end
    returns; after it, such a variable is found under that name with its
    parsed value (when several variables designate one name, the last of
    the pass is the one whose value remains), and a name that no variable
    of the pass designates keeps its entry, so that variables without the
    prefix leave the store as it is.  A pass whose iteration raises, as
    it does with [KeyError] when a variable is unset while the pass is
    under way, ends with that exception.  For a lower-casing that is
    [str.lower] on ASCII strings, the name under which a variable with an
    ASCII name is stored is the lower-cased rest of its name, and a
    variable named [feature_flag_x] in any letter case, such as
    [FEATURE_FLAG_X=1] and [feature_flag_x=1], enables the flag [x]. *)
Theorem refresh_consumes_prefixed_variables (lower : string → string) :
  (∀ self key value suffix,
      lower key = "feature_flag_" +:+ suffix →
      update_flag_with lower self (key, value)
      = Returns {| flags := <[suffix := _as_boolean_with lower value]> (flags self) |})
  ∧ (∀ self key value,
      (∀ suffix, lower key ≠ "feature_flag_" +:+ suffix) →
      update_flag_with lower self (key, value) = Returns self)
  ∧ (∀ self environ,
      match ending environ with
      | Some e => _update_flags_from_env_with lower self environ = Raises e
      | None =>
          ∃ self',
            _update_flags_from_env_with lower self environ = Returns self'
            ∧ (∀ before key value after suffix,
                 items environ = (before ++ (key, value) :: after)%list →
                 lower key = "feature_flag_" +:+ suffix →
                 (∀ k v, (k, v) ∈ after → lower k ≠ "feature_flag_" +:+ suffix) →
                 flags self' !! suffix = Some (_as_boolean_with lower value))
            ∧ (∀ name,
                 (∀ k v, (k, v) ∈ items environ →
                         lower k ≠ "feature_flag_" +:+ name) →
                 flags self' !! name = flags self !! name)
            ∧ ((∀ k v suffix, (k, v) ∈ items environ →
                              lower k ≠ "feature_flag_" +:+ suffix) →
               self' = self)
      end)
  ∧ (lowers_ascii lower →
     (∀ key suffix,
         isascii key = true → lower key = "feature_flag_" +:+ suffix →
         suffix = PyStr.lower (drop 13 key))
     ∧ (∀ self key, eq_ignore_case key "feature_flag_x" →
          ∃ self',
            _update_flags_from_env_with lower self
              {| items := [(key, "1")]; ending := None |} = Returns self'
            ∧ is_enabled self' "x" = true))
  ∧ eq_ignore_case "FEATURE_FLAG_X" "feature_flag_x"
  ∧ eq_ignore_case "feature_flag_x" "feature_flag_x".
Proof.
  split; [intros; by apply update_flag_prefixed|].
  split; [intros; by apply update_flag_other|]. split; [|split].
  - intros self environ.
    destruct (refresh_outcome lower self environ) as (self' & Hrun & Hpass).
    destruct (update_flags_lookup lower (items environ) self) as (s & Hs & L).
    rewrite Hrun in Hs. injection Hs as <-.
    destruct (ending environ) as [e|]; [done|].
    exists self'. split; [done|]. split; [|split].
    + intros before key value after suffix Hitems E Hafter.
      by rewrite L, Hitems, (designated_last lower before key value after suffix).
    + intros name Hn. by rewrite L, designated_None.
    + intros Hn. apply flags_eq. intros name. rewrite L, designated_None; [done|].
      intros k v Hin. by apply Hn with v.
  - intros Hlower. split.
    + intros key suffix Hkey E. rewrite (Hlower key Hkey) in E.
      rewrite lower_drop, E. reflexivity.
    + intros self key Hkey.
      assert (lower key = FEATURE_FLAG_PREFIX +:+ "x") as E.
      { rewrite Hlower by (by apply (eq_ignore_case_isascii key "feature_flag_x")).
        by apply lower_eq_iff in Hkey. }
      unfold _update_flags_from_env_with. cbn [items ending update_flags_with].
      rewrite (update_flag_prefixed _ _ _ _ _ E).
      eexists. split; [reflexivity|].
      unfold is_enabled, _as_boolean_with. simpl.
      rewrite lookup_insert_eq, (Hlower "1" eq_refl). reflexivity.
  - split; by apply lower_eq_iff.
Qed.

(** [FeatureFlagMgrTest]: a pass over the environment of the test enables
    [alpha_feature] and [experiment]; when the test removes a variable
    while the pass is under way, the pass ends with the [KeyError]. *)
Example refresh_of_the_test_environment :
  (∃ self,
     _update_flags_from_env FeatureFlagMgr.__init__ Scenarios.environ = Returns self
     ∧ is_enabled self "alpha_feature" = true
     ∧ is_enabled self "beta_feature" = false
     ∧ is_enabled self "experiment" = true
     ∧ is_enabled self "non_existent" = false)
  ∧ _update_flags_from_env FeatureFlagMgr.__init__ Scenarios.environ_torn_down
    = Raises (Scenarios.KeyError "'feature_flag_beta_feature'").
Proof.
  split; [|vm_compute; reflexivity].
  eexists. split; [vm_compute; reflexivity|]. repeat split.
Qed.

(** C9.  [is_enabled] is a total function (it has no raising outcome): it
    answers [false] for every name that is not in the mapping, and so for
    every name on a store that was just constructed. *)
Theorem is_enabled_absent :
  (∀ self feature_name,
      flags self !! feature_name = None → is_enabled self feature_name = false)
  ∧ (∀ feature_name, is_enabled FeatureFlagMgr.__init__ feature_name = false).
Proof.
  split.
  - intros self feature_name H. unfold is_enabled. by rewrite H.
  - intros feature_name. unfold is_enabled. simpl. by rewrite lookup_empty.
Qed.

End FlagStoreClaims.

(** ** Properties of the construction of graphs *)

Section Construction.
Import ComputationalNode.

Lemma set_add_elem (x : node_id) s : x ∈ set_add x s.
Proof.
  unfold set_add. case_bool_decide; [done|]. apply elem_of_app. right. by left.
Qed.

Lemma set_add_mono (x y : node_id) s : y ∈ s → y ∈ set_add x s.
Proof.
  intros H. unfold set_add. case_bool_decide; [done|]. apply elem_of_app. by left.
Qed.

Lemma add_child_is_Some (p c x : node_id) (h : heap) :
  is_Some (add_child p c h !! x) ↔ is_Some (h !! x).
Proof. unfold add_child. apply lookup_alter_is_Some. Qed.

Lemma add_child_children (p c : node_id) (h : heap) :
  is_Some (h !! p) → c ∈ children_of (add_child p c h) p.
Proof.
  intros [n Hn]. unfold children_of, add_child.
  rewrite lookup_alter_eq, Hn. simpl. apply set_add_elem.
Qed.

Lemma add_child_children_mono (p c q x : node_id) (h : heap) :
  x ∈ children_of h q → x ∈ children_of (add_child p c h) q.
Proof.
  unfold children_of, add_child. destruct (decide (p = q)) as [->|Hne].
  - rewrite lookup_alter_eq. destruct (h !! q); simpl; [apply set_add_mono | done].
  - by rewrite lookup_alter_ne.
Qed.

(** [add_child] does not touch the [parents] of any node. *)
Lemma add_child_parents (p c x : node_id) (h : heap) :
  parents_of (add_child p c h) x = parents_of h x.
Proof.
  unfold parents_of, add_child. destruct (decide (p = x)) as [->|Hne].
  - rewrite lookup_alter_eq. by destruct (h !! x).
  - by rewrite lookup_alter_ne.
Qed.

Lemma add_children_parents (self x : node_id) ps : ∀ h : heap,
  parents_of (foldl (fun h parent => add_child parent self h) h ps) x
  = parents_of h x.
Proof.
  induction ps as [|q ps IH]; intros h; simpl; [done|].
  by rewrite IH, add_child_parents.
Qed.

Lemma add_children_children (self p : node_id) ps : ∀ h : heap,
  is_Some (h !! p) →
  p ∈ ps ∨ self ∈ children_of h p →
  self ∈ children_of (foldl (fun h parent => add_child parent self h) h ps) p.
Proof.
  induction ps as [|q ps IH]; intros h Hp H; simpl.
  - destruct H as [H|H]; [by apply elem_of_nil in H | done].
  - apply IH; [by apply add_child_is_Some|].
    destruct H as [[->|H]%elem_of_cons|H].
    + right. by apply add_child_children.
    + by left.
    + right. by apply add_child_children_mono.
Qed.

Lemma set_event_children e self (h : heap) x :
  children_of (alter (set_event e) self h) x = children_of h x.
Proof.
  unfold children_of. destruct (decide (self = x)) as [->|Hne].
  - rewrite lookup_alter_eq. by destruct (h !! x).
  - by rewrite lookup_alter_ne.
Qed.

Lemma set_event_parents e self (h : heap) x :
  parents_of (alter (set_event e) self h) x = parents_of h x.
Proof.
  unfold parents_of. destruct (decide (self = x)) as [->|Hne].
  - rewrite lookup_alter_eq. by destruct (h !! x).
  - by rewrite lookup_alter_ne.
Qed.

(** The constructor records both directions of the edge from each parent. *)
Lemma init_edges (h : heap) name ps ff fn kw cond (p : node_id) :
  p ∈ ps → is_Some (h !! p) →
  let c := (__init__ h name (Some ps) ff fn kw cond).1 in
  let h' := (__init__ h name (Some ps) ff fn kw cond).2 in
  c ∈ children_of h' p ∧ p ∈ parents_of h' c.
Proof.
  intros Hin Hp. simpl. split.
  - rewrite set_event_children. apply add_children_children; [|by left].
    apply lookup_insert_is_Some'. by right.
  - rewrite set_event_parents, add_children_parents.
    unfold parents_of. by rewrite lookup_insert_eq.
Qed.

(** C5, as the code has it.  An edge made by passing [p] in the parents
    list of the constructor of [c] is recorded on both sides: [c] is in
    [p.children] and [p] is in [c.parents].  [p.add_child(c)] puts [c] in
    [p.children] and leaves the [parents] of every node, [c] included, as
    they were. *)
Theorem construction_edges :
  (∀ (h : heap) name ps ff fn kw cond (p : node_id),
      p ∈ ps → is_Some (h !! p) →
      let c := (__init__ h name (Some ps) ff fn kw cond).1 in
      let h' := (__init__ h name (Some ps) ff fn kw cond).2 in
      c ∈ children_of h' p ∧ p ∈ parents_of h' c)
  ∧ (∀ (h : heap) (p c : node_id),
       is_Some (h !! p) →
       c ∈ children_of (add_child p c h) p
       ∧ ∀ x, parents_of (add_child p c h) x = parents_of h x).
Proof.
  split.
  - intros. by apply init_edges.
  - intros h p c Hp. split; [by apply add_child_children|].
    intros x. apply add_child_parents.
Qed.

End Construction.

(** The constructor of [middle_node], with [start_node] as its parent,
    records the edge on both sides. *)
Lemma construction_edges_witness :
  Tests.node2.1 ∈ children_of Tests.node2.2 Tests.node1.1
  ∧ Tests.node1.1 ∈ parents_of Tests.node2.2 Tests.node2.1.
Proof.
  apply (proj1 construction_edges Tests.node1.2 "middle_node" [Tests.node1.1]
           None (Some Tests.sync_task_executor)
           (Some (Tests.kwargs "middle_node" "progressing")) None Tests.node1.1).
  - by left.
  - vm_compute. by eexists.
Defined.

(** C5 as stated fails on [graph.root.add_child(node1)]: the root has
    [node1] among its children, and [node1], constructed with no parents,
    still has none.  The edge from the root is recorded on one side only. *)
Lemma add_child_is_one_sided :
  Tests.node1.1 ∈ children_of Tests.linear (ComputationalGraph.root Tests.graph.1)
  ∧ ¬ (ComputationalGraph.root Tests.graph.1 ∈ parents_of Tests.linear Tests.node1.1).
Proof.
  split.
  - vm_compute. by left.
  - intros H. vm_compute in H. by apply elem_of_nil in H.
Qed.

(** ** Properties of the run of a node *)

Section NodeRun.
Import ComputationalNode.

(** *** The objects of the heap persist through a run *)

Lemma extends_refl fr : extends fr fr.
Proof. by intros x. Qed.

Lemma extends_trans fr1 fr2 fr3 : extends fr1 fr2 → extends fr2 fr3 → extends fr1 fr3.
Proof. intros H1 H2 x Hx. by apply H2, H1. Qed.

Lemma keeps_ret {A} (a : A) : keeps (ret a).
Proof. intros fr. apply extends_refl. Qed.

Lemma keeps_eval {A} (o : outcome A) : keeps (eval o).
Proof. intros fr. apply extends_refl. Qed.

Lemma keeps_bind {A B} (c : M frame A) (k : A → M frame B) :
  keeps c → (∀ a, keeps (k a)) → keeps (bind c k).
Proof.
  intros Hc Hk fr. unfold bind. specialize (Hc fr).
  destruct (c fr) as [[a|e|] fr']; simpl in *; [|done..].
  eapply extends_trans; [done|]. apply Hk.
Qed.

Lemma keeps_try_except {A} (body : M frame A) handler :
  keeps body → (∀ e, keeps (handler e)) → keeps (try_except body handler).
Proof.
  intros Hb Hh fr. unfold try_except. specialize (Hb fr).
  destruct (body fr) as [[a|e|] fr']; simpl in *; [done| |done].
  destruct (exn_caught e); [|done].
  eapply extends_trans; [done|]. apply Hh.
Qed.

Lemma keeps_try_finally {A} (body : M frame A) finalizer :
  keeps body → keeps finalizer → keeps (try_finally body finalizer).
Proof.
  intros Hb Hf fr. unfold try_finally. specialize (Hb fr).
  destruct (body fr) as [[a|e|] fr']; simpl in *; [| |done];
    specialize (Hf fr'); destruct (finalizer fr') as [[u|e'|] fr''];
    simpl in *; by eapply extends_trans.
Qed.

Lemma keeps_for_each {A} (xs : list A) body :
  (∀ x, keeps (body x)) → keeps (for_each xs body).
Proof.
  intros Hb. induction xs as [|x xs IH]; simpl; [apply keeps_ret|].
  apply keeps_bind; [apply Hb | by intros _].
Qed.

Lemma keeps_modify_perf_stats f : keeps (modify (set_perf_stats f)).
Proof. intros fr x Hx. exact Hx. Qed.

Lemma keeps_setitem key value : keeps (setitem key value).
Proof. apply keeps_modify_perf_stats. Qed.

Lemma keeps_return_perf_stats : keeps return_perf_stats.
Proof. intros fr. apply extends_refl. Qed.

Lemma keeps_time_time : keeps time_time.
Proof. intros fr x Hx. exact Hx. Qed.

Lemma keeps_alter f self :
  keeps (modify (in_world (set_nodes (alter f self)))).
Proof. intros fr x Hx. simpl. by apply lookup_alter_is_Some. Qed.

Lemma keeps_event self : keeps (event self).
Proof. apply keeps_alter. Qed.

Lemma keeps_event_set self : keeps (event_set self).
Proof. apply keeps_bind; [apply keeps_event | intros _; apply keeps_alter]. Qed.

Lemma keeps_await_parents loop ps :
  keeps_objects loop → keeps (await_parents loop ps).
Proof.
  intros Hloop. destruct ps as [|p ps]; [apply keeps_ret|].
  unfold await_parents. apply keeps_bind.
  - apply keeps_for_each, keeps_event.
  - intros _ fr x Hx.
    assert (resumes loop (the_world fr) (wait_parents loop (p :: ps) (the_world fr)).2)
      as Hr by (left; by eexists).
    specialize (Hloop _ _ x Hr Hx).
    by destruct (wait_parents loop (p :: ps) (the_world fr)).
Qed.

Lemma keeps_dispatch loop n record :
  keeps_objects loop → keeps (dispatch loop n record).
Proof.
  intros Hloop. unfold dispatch.
  destruct (exe_function n) as [f|]; [|apply keeps_ret].
  destruct (iscoroutinefunction f);
    (apply keeps_bind; [|intros _; apply keeps_ret]); intros fr x Hx; unfold await.
  - assert (resumes loop (the_world fr)
              (create_task loop f record (exe_kwargs n) (the_world fr)).2) as Hr
      by (right; left; by eexists _, _, _).
    specialize (Hloop _ _ x Hr Hx). by destruct (create_task loop f record _ _).
  - assert (resumes loop (the_world fr)
              (to_thread loop f record (exe_kwargs n) (the_world fr)).2) as Hr
      by (right; right; by eexists _, _, _).
    specialize (Hloop _ _ x Hr Hx). by destruct (to_thread loop f record _ _).
Qed.

Lemma keeps_execute loop n record t_awaiting_parents t1 :
  keeps_objects loop → keeps (execute loop n record t_awaiting_parents t1).
Proof.
  intros Hloop. unfold execute.
  repeat (apply keeps_bind; [|intros ?]);
    auto using keeps_dispatch, keeps_setitem, keeps_time_time, keeps_return_perf_stats.
Qed.

Lemma keeps_condition_gate n record rest :
  keeps rest → keeps (condition_gate n record rest).
Proof.
  intros Hrest. unfold condition_gate. destruct (exe_condition n) as [cond|]; [|done].
  apply keeps_bind; [intros fr; apply extends_refl|].
  intros [|]; simpl; [done|].
  apply keeps_bind; [apply keeps_setitem | intros _; apply keeps_return_perf_stats].
Qed.

Lemma keeps_feature_flag_gate n fm rest :
  keeps rest → keeps (feature_flag_gate n fm rest).
Proof.
  intros Hrest. unfold feature_flag_gate.
  destruct (feature_flag n) as [[|c flag]|]; [done| |done].
  apply keeps_bind; [apply keeps_eval|].
  intros [|]; simpl; [done|].
  apply keeps_bind; [apply keeps_setitem | intros _; apply keeps_return_perf_stats].
Qed.


(** *** The outcome of a run, path by path *)

(** [dispatch] is the [await] of the work function, when there is one. *)
Lemma dispatch_unfold loop n record f :
  exe_function n = Some f →
  dispatch loop n record
  = (let* _ := await (await_work loop f record (exe_kwargs n)) in ret tt).
Proof.
  intros Hf. unfold dispatch, await_work. rewrite Hf.
  by destruct (iscoroutinefunction f).
Qed.

Lemma execute_result loop n record t_awaiting_parents t1 fr :
  let r := execute loop n record t_awaiting_parents t1 fr in
  match work_outcome loop record n (the_world fr) with
  | Some (Raises e) => r.1 = Raises e ∧ perf_stats r.2 = perf_stats fr
  | Some Hangs => r.1 = Hangs
  | _ => ∃ b, r.1 = Returns (<[name n +:+ ".execution" := b]>
                (<[name n +:+ ".awaiting_parents" := fmt3 t_awaiting_parents]>
                   (perf_stats fr)))
  end.
Proof.
  unfold execute, work_outcome.
  destruct (exe_function n) as [f|] eqn:Hf.
  - rewrite (dispatch_unfold loop n record f Hf). cbv [bind await].
    destruct (await_work loop f record (exe_kwargs n) (the_world fr))
      as [[v|e|] w]; simpl; eauto.
  - unfold dispatch. rewrite Hf. simpl. eauto.
Qed.

Lemma condition_gate_result n record rest fr :
  let r := condition_gate n record rest fr in
  match predicate_outcome record n (output (the_world fr)) with
  | Some (Raises e) => r = (Raises e, fr)
  | Some Hangs => r = (Hangs, fr)
  | Some (Returns false) =>
      r.1 = Returns (<[name n +:+ ".exe_condition" := "False"]> (perf_stats fr))
  | _ => r = rest fr
  end.
Proof.
  unfold condition_gate, predicate_outcome.
  destruct (exe_condition n) as [cond|]; [|done].
  cbv [bind]. destruct (cond record (output (the_world fr))) as [[|]|e|]; done.
Qed.

Lemma feature_flag_gate_result n fm rest fr :
  let r := feature_flag_gate n fm rest fr in
  match flag_outcome fm n with
  | Some (Raises e) => r = (Raises e, fr)
  | Some Hangs => r = (Hangs, fr)
  | Some (Returns false) =>
      r.1 = Returns (<[name n +:+ ".feature_flag" := "False"]> (perf_stats fr))
  | _ => r = rest fr
  end.
Proof.
  unfold feature_flag_gate, flag_outcome.
  destruct (feature_flag n) as [[|c flag]|]; [done| |done].
  cbv [bind eval]. destruct (call_is_enabled fm (String c flag)) as [[|]|e|]; done.
Qed.

Lemma gates_result loop n fm record t_awaiting_parents t1 fr w :
  perf_stats fr = ∅ →
  the_world fr = at_gates w →
  result_on n (gates_path loop fm record n w) t_awaiting_parents
    (feature_flag_gate n fm
       (condition_gate n record (execute loop n record t_awaiting_parents t1)) fr).
Proof.
  intros Hp Hw. unfold result_on, gates_path.
  pose proof (feature_flag_gate_result n fm
    (condition_gate n record (execute loop n record t_awaiting_parents t1)) fr) as Hf.
  pose proof (condition_gate_result n record
    (execute loop n record t_awaiting_parents t1) fr) as Hc.
  pose proof (execute_result loop n record t_awaiting_parents t1 fr) as He.
  simpl in Hf, Hc, He. rewrite Hp in *. rewrite Hw in Hc, He.
  change (output (at_gates w)) with (output w) in Hc.
  destruct (flag_outcome fm n) as [[[|]|e|]|]; try (by rewrite Hf); rewrite Hf.
  all: destruct (predicate_outcome record n _) as [[[|]|e|]|]; try (by rewrite Hc); rewrite Hc.
  all: destruct (work_outcome loop record n _) as [[v|e|]|]; try done.
Qed.

Lemma for_each_event_perf_stats ps : ∀ fr,
  ∃ fr', for_each ps event fr = (Returns tt, fr') ∧ perf_stats fr' = perf_stats fr.
Proof.
  induction ps as [|p ps IH]; intros fr; simpl; [by eexists|].
  cbv [bind event modify].
  edestruct IH as (fr' & E & Hp). exists fr'. split; [exact E | exact Hp].
Qed.

Lemma await_parents_perf_stats loop ps fr :
  perf_stats (await_parents loop ps fr).2 = perf_stats fr.
Proof.
  destruct ps as [|p ps]; [done|]. unfold await_parents, bind.
  destruct (for_each_event_perf_stats (p :: ps) fr) as (fr' & -> & <-).
  by destruct (wait_parents loop (p :: ps) (the_world fr')).
Qed.

Lemma attempt_result n record fm loop w :
  ∃ t_awaiting_parents,
    result_on n (path_taken loop fm record n w) t_awaiting_parents
      (attempt n record fm loop {| the_world := w; perf_stats := ∅ |}).
Proof.
  unfold attempt, path_taken, after_barrier. unfold bind at 1. unfold time_time at 1.
  unfold bind at 1.
  change (in_world tick {| the_world := w; perf_stats := ∅ |})
    with {| the_world := tick w; perf_stats := ∅ |}.
  pose proof (await_parents_perf_stats loop (parents n)
                {| the_world := tick w; perf_stats := ∅ |}) as Hp.
  destruct (await_parents loop (parents n) _) as [[[]|e|] fr3]; simpl in Hp.
  - cbv [bind time_time]. eexists.
    apply (gates_result loop n fm record _ _ (in_world tick (in_world tick fr3)));
      [exact Hp | reflexivity].
  - exists 0%Z. by split.
  - by exists 0%Z.
Qed.

(** A run is its [try] block under the handler and the [finally] clause. *)
Lemma run_unfold self n record fm loop fr :
  nodes (the_world fr) !! self = Some n →
  run self record fm loop fr
  = try_finally (try_except (attempt n record fm loop) (on_exception n))
      (event_set self) {| the_world := the_world fr; perf_stats := ∅ |}.
Proof. intros Hn. unfold run. cbv [bind deref modify]. by rewrite Hn. Qed.

(** The outcome of a run, by the path it takes. *)
Lemma run_result self n record fm loop fr :
  nodes (the_world fr) !! self = Some n →
  let r := (run self record fm loop fr).1 in
  match path_taken loop fm record n (the_world fr) with
  | Success =>
      ∃ a b, r = Returns (<[name n +:+ ".execution" := b]>
                   (<[name n +:+ ".awaiting_parents" := a]> ∅))
  | FlagSkip => r = Returns (<[name n +:+ ".feature_flag" := "False"]> ∅)
  | PredicateSkip => r = Returns (<[name n +:+ ".exe_condition" := "False"]> ∅)
  | Failure _ e =>
      r = if exn_caught e
          then match str e with
               | Returns message =>
                   Returns (<[name n +:+ ".exception" := message]> ∅)
               | Raises e' => Raises e'
               | Hangs => Hangs
               end
          else Raises e
  | Unfinished _ => r = Hangs
  end.
Proof.
  intros Hn r. subst r. rewrite (run_unfold _ _ _ _ _ _ Hn).
  destruct (attempt_result n record fm loop (the_world fr)) as [ta H].
  unfold result_on in H. unfold try_finally, try_except.
  destruct (attempt n record fm loop _) as [ra fra]. simpl in H.
  destruct (path_taken loop fm record n (the_world fr)) as [| | |src e|src].
  - destruct H as [b ->]. by exists (fmt3 ta), b.
  - by rewrite H.
  - by rewrite H.
  - destruct H as [-> Hp]. destruct (exn_caught e); [|done].
    cbv [on_exception bind eval setitem modify return_perf_stats].
    destruct (str e) as [message|e'|]; simpl; [|done..]. by rewrite Hp.
  - by rewrite H.
Qed.

(** [str(e)] returns the text [exn_str e] or does not return. *)
Lemma str_returns e message : str e = Returns message → message = exn_str e.
Proof. destruct e; simpl; congruence. Qed.

Lemma keeps_attempt n record fm loop :
  keeps_objects loop → keeps (attempt n record fm loop).
Proof.
  intros Hloop. unfold attempt.
  apply keeps_bind; [apply keeps_time_time | intros t0].
  apply keeps_bind; [by apply keeps_await_parents | intros _].
  apply keeps_bind; [apply keeps_time_time | intros t].
  apply keeps_bind; [apply keeps_time_time | intros t1].
  by apply keeps_feature_flag_gate, keeps_condition_gate, keeps_execute.
Qed.

Lemma keeps_on_exception n e : keeps (on_exception n e).
Proof.
  apply keeps_bind; [apply keeps_eval | intros message].
  apply keeps_bind; [apply keeps_setitem | intros _; apply keeps_return_perf_stats].
Qed.

(** Once the [finally] clause has run, the event of [self] is set. *)
Lemma event_set_is_set self fr :
  is_Some (nodes (the_world fr) !! self) →
  is_set (nodes (the_world (event_set self fr).2)) self = true.
Proof.
  intros [n Hn]. unfold is_set. cbv [event_set bind event modify]. simpl.
  rewrite !lookup_alter_eq, Hn. by destruct (_event n).
Qed.

Lemma try_finally_event_set {A} (body : M frame A) self fr :
  keeps body →
  is_Some (nodes (the_world fr) !! self) →
  (try_finally body (event_set self) fr).1 ≠ Hangs →
  is_set (nodes (the_world (try_finally body (event_set self) fr).2)) self = true.
Proof.
  intros Hk Hs. specialize (Hk fr self Hs). unfold try_finally.
  destruct (body fr) as [[a|e|] fr']; simpl in Hk; [| |done]; intros _;
    by apply event_set_is_set.
Qed.

(** The keys of the metrics of a node differ by their suffix. *)
Lemma key_inj (prefix s1 s2 : string) : prefix +:+ s1 = prefix +:+ s2 → s1 = s2.
Proof. apply (inj (String.app prefix)). Qed.

Lemma insert_empty_singleton (k v : string) : <[k := v]> (∅ : metrics) = {[k := v]}.
Proof. apply insert_empty. Qed.

(** C1, as the code has it.  When an exception is raised in the [try]
    block, by the parent barrier, by the feature-flag check, by the
    predicate or by the [await] of the work function, and it is an instance
    of [Exception], [str(error)] is evaluated: when it returns, the run
    returns the metrics that hold ["{name}.exception"] with that text and
    nothing else; when it raises, the run lets that exception through; when
    it never returns, neither does the run.  An exception that is not an
    instance of [Exception] propagates to the caller; a collaborator that
    never completes keeps the run from returning; and in every other case
    the run returns a metrics mapping.  What the [await] of the work
    function raises is what the event loop throws into the coroutine, which
    need not be what the work function raised. *)
Theorem run_captures_exceptions self n record fm loop fr :
  nodes (the_world fr) !! self = Some n →
  let r := (run self record fm loop fr).1 in
  match path_taken loop fm record n (the_world fr) with
  | Failure _ e =>
      if exn_caught e
      then match str e with
           | Returns message =>
               r = Returns {[ name n +:+ ".exception" := message ]}
           | Raises e' => r = Raises e'
           | Hangs => r = Hangs
           end
      else r = Raises e
  | Unfinished _ => r = Hangs
  | _ => ∃ m, r = Returns m
  end.
Proof.
  intros Hn r. pose proof (run_result self n record fm loop fr Hn) as H.
  simpl in H. fold r in H.
  destruct (path_taken loop fm record n (the_world fr)) as [| | |src e|src].
  - destruct H as (a & b & ->). by eexists.
  - by eexists.
  - by eexists.
  - destruct (exn_caught e); [|done].
    destruct (str e) as [message|e'|]; [|done..].
    by rewrite <- insert_empty_singleton.
  - done.
Qed.

(** C2.  Whenever a run exits, by returning its metrics (on success, on a
    feature-flag skip, on a predicate skip, on a caught exception) or by
    letting an exception through, the event of the node is set. *)
Theorem run_sets_done self n record fm loop fr :
  nodes (the_world fr) !! self = Some n →
  keeps_objects loop →
  (run self record fm loop fr).1 ≠ Hangs →
  is_set (nodes (the_world (run self record fm loop fr).2)) self = true.
Proof.
  intros Hn Hloop. rewrite (run_unfold _ _ _ _ _ _ Hn).
  apply try_finally_event_set.
  - apply keeps_try_except; [by apply keeps_attempt | apply keeps_on_exception].
  - simpl. by rewrite Hn.
Qed.

(** C4.  The metrics that a run returns are, and hold nothing but:
    ["{name}.feature_flag"] with ["False"] on a flag skip;
    ["{name}.exe_condition"] with ["False"] on a predicate skip;
    ["{name}.exception"] with the message on a failure; the two distinct keys
    ["{name}.awaiting_parents"] and ["{name}.execution"] on success. *)
Theorem run_metrics_shape self n record fm loop fr m :
  nodes (the_world fr) !! self = Some n →
  (run self record fm loop fr).1 = Returns m →
  let path := path_taken loop fm record n (the_world fr) in
  (path = FlagSkip ∧ m = {[ name n +:+ ".feature_flag" := "False" ]})
  ∨ (path = PredicateSkip ∧ m = {[ name n +:+ ".exe_condition" := "False" ]})
  ∨ (∃ src e, path = Failure src e
              ∧ m = {[ name n +:+ ".exception" := exn_str e ]})
  ∨ (path = Success
     ∧ name n +:+ ".awaiting_parents" ≠ name n +:+ ".execution"
     ∧ ∃ a b, m = {[ name n +:+ ".awaiting_parents" := a;
                     name n +:+ ".execution" := b ]}).
Proof.
  intros Hn Hr path. pose proof (run_result self n record fm loop fr Hn) as H.
  simpl in H. rewrite Hr in H. fold path in H.
  assert (name n +:+ ".awaiting_parents" ≠ name n +:+ ".execution") as Hne.
  { intros E%key_inj. discriminate E. }
  destruct path as [| | |src e|src].
  - right. right. right. split; [done|]. split; [done|].
    destruct H as (a & b & [= ->]). exists a, b.
    rewrite insert_empty_singleton. by apply insert_insert_ne.
  - left. split; [done|]. injection H as ->. apply insert_empty_singleton.
  - right. left. split; [done|]. injection H as ->. apply insert_empty_singleton.
  - right. right. left. exists src, e. split; [done|].
    destruct (exn_caught e); [|done].
    destruct (str e) as [message|e'|] eqn:Hstr; [|done..].
    apply str_returns in Hstr as ->.
    injection H as ->. apply insert_empty_singleton.
  - done.
Qed.

(** C10.  A node without a work function whose barrier is passed and whose
    gates pass (it has no feature flag, or the flag is enabled; it has no
    predicate, or the predicate holds) returns metrics with both
    ["{name}.awaiting_parents"] and ["{name}.execution"]. *)
Theorem run_without_work self n record fm loop fr w' :
  nodes (the_world fr) !! self = Some n →
  exe_function n = None →
  after_barrier loop n (the_world fr) = Returns w' →
  flag_outcome fm n = None ∨ flag_outcome fm n = Some (Returns true) →
  predicate_outcome record n (output w') = None
  ∨ predicate_outcome record n (output w') = Some (Returns true) →
  ∃ m, (run self record fm loop fr).1 = Returns m
       ∧ is_Some (m !! (name n +:+ ".awaiting_parents"))
       ∧ is_Some (m !! (name n +:+ ".execution")).
Proof.
  intros Hn Hwork Hb Hflag Hcond.
  pose proof (run_result self n record fm loop fr Hn) as H. simpl in H.
  assert (path_taken loop fm record n (the_world fr) = Success) as Hpath.
  { unfold path_taken, gates_path, work_outcome. rewrite Hb, Hwork.
    by destruct Hflag as [-> | ->], Hcond as [-> | ->]. }
  rewrite Hpath in H. destruct H as (a & b & ->). eexists. split; [done|].
  split.
  - rewrite lookup_insert_ne, lookup_insert_eq; [by eexists|].
    intros E%key_inj. discriminate E.
  - rewrite lookup_insert_eq. by eexists.
Qed.

End NodeRun.

(** The loop of a coroutine awaited alone leaves the nodes as they are. *)
Lemma alone_resumes w w' : resumes Serial.alone w w' → nodes w' = nodes w.
Proof.
  intros [[ps ->]|[(f & record & kwargs & ->)|(f & record & kwargs & ->)]]; simpl.
  - unfold Serial.wait_now. by destruct (forallb _ _).
  - unfold Serial.work_now. by destruct (call_work f record _ _).
  - unfold Serial.work_now. by destruct (call_work f record _ _).
Qed.

Lemma alone_keeps_objects : keeps_objects Serial.alone.
Proof. intros w w' x Hr. by rewrite (alone_resumes w w' Hr). Qed.

(** [test_node_failure]: the [ValueError] of the work function is recorded. *)
Lemma run_captures_exceptions_witness :
  (ComputationalNode.run Tests.error_node.1 ∅ Tests.no_flags Serial.alone
     (Tests.frame_of Tests.error_node.2)).1
  = Returns {[ "error_node.exception" := "Intentional error occurred" ]}.
Proof.
  pose proof (run_captures_exceptions Tests.error_node.1 _ ∅ Tests.no_flags
                Serial.alone (Tests.frame_of Tests.error_node.2) eq_refl) as H.
  exact H.
Defined.

(** C1 as stated fails on a predicate that calls [sys.exit]: the
    [SystemExit] is not caught, the run lets it through and returns no
    metrics. *)
Lemma run_propagates_system_exit :
  (ComputationalNode.run Tests.exiting_node.1 ∅ Tests.no_flags Serial.alone
     (Tests.frame_of Tests.exiting_node.2)).1
  = Raises (Tests.SystemExit "1")
  ∧ ¬ (∃ m, (ComputationalNode.run Tests.exiting_node.1 ∅ Tests.no_flags Serial.alone
               (Tests.frame_of Tests.exiting_node.2)).1 = Returns m).
Proof.
  assert ((ComputationalNode.run Tests.exiting_node.1 ∅ Tests.no_flags Serial.alone
             (Tests.frame_of Tests.exiting_node.2)).1
          = Raises (Tests.SystemExit "1")) as E by (vm_compute; reflexivity).
  split; [exact E|]. intros [m Hm]. rewrite E in Hm. discriminate Hm.
Qed.

(** An exception whose [__str__] does not return a string: the handler
    evaluates [str(e)], the [TypeError] of that call leaves the run, and the
    event is set all the same. *)
Example run_lets_str_failure_through :
  (ComputationalNode.run Scenarios.mute_node.1 ∅ Tests.no_flags Serial.alone
     (Tests.frame_of Scenarios.mute_node.2)).1
  = Raises (Tests.TypeError "__str__ returned non-string (type int)")
  ∧ is_set (nodes (the_world
      (ComputationalNode.run Scenarios.mute_node.1 ∅ Tests.no_flags Serial.alone
         (Tests.frame_of Scenarios.mute_node.2)).2)) Scenarios.mute_node.1 = true.
Proof. vm_compute. split; reflexivity. Qed.

(** [test_basic_node] and [test_node_failure]: the event is not set before
    the run and is set after it. *)
Lemma run_sets_done_witness :
  (is_set Tests.basic_node.2 Tests.basic_node.1 = false
   ∧ is_set (nodes (the_world
       (ComputationalNode.run Tests.basic_node.1 ∅ Tests.no_flags Serial.alone
          (Tests.frame_of Tests.basic_node.2)).2)) Tests.basic_node.1 = true)
  ∧ is_set (nodes (the_world
       (ComputationalNode.run Tests.error_node.1 ∅ Tests.no_flags Serial.alone
          (Tests.frame_of Tests.error_node.2)).2)) Tests.error_node.1 = true.
Proof.
  split; [split|].
  - reflexivity.
  - apply (run_sets_done Tests.basic_node.1 _ ∅ Tests.no_flags Serial.alone
             (Tests.frame_of Tests.basic_node.2) eq_refl alone_keeps_objects).
    intros E. apply (f_equal exits) in E. vm_compute in E. discriminate E.
  - apply (run_sets_done Tests.error_node.1 _ ∅ Tests.no_flags Serial.alone
             (Tests.frame_of Tests.error_node.2) eq_refl alone_keeps_objects).
    intros E. apply (f_equal exits) in E. vm_compute in E. discriminate E.
Defined.

(** [test_conditional_execution], first run: the record has no
    ['trigger_key'], the run returns the predicate key alone, and the path
    is the predicate skip. *)
Lemma run_metrics_shape_witness :
  ∃ n, Tests.conditional_node.2 !! Tests.conditional_node.1 = Some n
       ∧ (ComputationalNode.run Tests.conditional_node.1
            {[ "key1" := VStr "value1" ]} Tests.no_flags Serial.alone
            (Tests.frame_of Tests.conditional_node.2)).1
         = Returns {[ "conditional_node.exe_condition" := "False" ]}
       ∧ path_taken Serial.alone Tests.no_flags {[ "key1" := VStr "value1" ]} n
           (Tests.world_of Tests.conditional_node.2) = PredicateSkip.
Proof.
  assert ((ComputationalNode.run Tests.conditional_node.1
             {[ "key1" := VStr "value1" ]} Tests.no_flags Serial.alone
             (Tests.frame_of Tests.conditional_node.2)).1
          = Returns {[ "conditional_node.exe_condition" := "False" ]}) as E
    by (vm_compute; reflexivity).
  eexists. split; [reflexivity|]. split; [exact E|].
  destruct (run_metrics_shape Tests.conditional_node.1 _ _ Tests.no_flags
              Serial.alone (Tests.frame_of Tests.conditional_node.2) _ eq_refl E)
    as [[Hp _]|[[Hp _]|[(src & e & Hp & _)|(Hp & _)]]].
  - vm_compute in Hp. discriminate Hp.
  - exact Hp.
  - vm_compute in Hp. discriminate Hp.
  - vm_compute in Hp. discriminate Hp.
Defined.

(** A node behind the flag [x], without work: with [x] enabled it reports
    both timings. *)
Lemma run_without_work_witness :
  ∃ m, (ComputationalNode.run Tests.idle_node.1 ∅ Tests.flag_x Serial.alone
          (Tests.frame_of Tests.idle_node.2)).1 = Returns m
       ∧ is_Some (m !! "idle_node.awaiting_parents")
       ∧ is_Some (m !! "idle_node.execution").
Proof.
  apply (run_without_work Tests.idle_node.1 _ ∅ Tests.flag_x Serial.alone
           (Tests.frame_of Tests.idle_node.2) _ eq_refl eq_refl eq_refl).
  - right. reflexivity.
  - left. reflexivity.
Defined.

(** ** Properties of the traversal *)

Section Traversal.
Import ComputationalGraph.
Variables (h : heap) (root : node_id).
Local Abbreviation inv := (inv h root).
Local Abbreviation exact := (exact h root).

Lemma children_references n c : c ∈ children_of h n → c ∈ references h.
Proof.
  unfold children_of, references. destruct (h !! n) as [x|] eqn:E.
  - intros Hc. apply list_elem_of_bind. exists (n, x). split; [done|].
    by apply elem_of_map_to_list.
  - intros Hc. by apply elem_of_nil in Hc.
Qed.

Lemma path_zero x : path h root 0 x → x = root.
Proof. by inversion 1. Qed.

Lemma path_succ k c :
  path h root (S k) c → ∃ n, path h root k n ∧ c ∈ children_of h n.
Proof. inversion 1 as [|k' n c' Hn Hc]. by exists n. Qed.

(** Every node closer to the root than the head of the queue has been taken
    from the queue. *)
Lemma inv_complete dl ql st :
  inv dl ql st →
  ∀ k y, path h root k y →
         match ql with [] => True | hd :: _ => (k < hd.2)%nat end →
         y ∈ dl.*1.
Proof.
  intros I k y Hp. induction Hp as [|k n c Hp IH Hc]; intros Hb.
  - pose proof (inv_visited I) as Hv. rewrite (inv_tasks I) in Hv.
    destruct dl as [|[r d] dl].
    + destruct ql as [|[r d] ql]; [done|]. simpl in *. injection Hv as <- _.
      pose proof (inv_exact I) as He. simpl in He.
      apply Forall_cons_1 in He as [[_ He] _]. specialize (He 0 (path_root _ _)).
      simpl in He. lia.
    + simpl in Hv. injection Hv as <- _. by left.
  - assert (n ∈ dl.*1) as Hn.
    { apply IH. destruct ql as [|hd ql]; [done|]. lia. }
    pose proof (inv_closed I n c Hn Hc) as Hv.
    rewrite (inv_visited I), fmap_app in Hv.
    apply elem_of_app in Hv as [Hv|Hv]; [done|]. exfalso.
    apply list_elem_of_fmap in Hv as ([c' d] & -> & Hin). simpl in *.
    destruct ql as [|hd ql]; [by apply elem_of_nil in Hin|].
    pose proof (inv_exact I) as He. rewrite Forall_app in He.
    destruct He as [_ He]. rewrite Forall_forall in He.
    destruct (He _ Hin) as [_ Hmin]. simpl in Hmin.
    specialize (Hmin (S k) (path_child _ _ _ _ _ Hp Hc)).
    pose proof (inv_sorted I) as Hs. apply StronglySorted_app_1_r in Hs.
    apply StronglySorted_cons in Hs as [Hs _]. rewrite Forall_forall in Hs.
    simpl in Hb. apply elem_of_cons in Hin as [<-|Hin]; [simpl in Hb; lia|].
    specialize (Hs _ Hin). unfold by_level in Hs. simpl in Hs. lia.
Qed.

Lemma visit_queue_nonempty st c : queue st ≠ [] → queue (visit st c) ≠ [].
Proof.
  intros Hq. unfold visit. case_bool_decide; [done|]. simpl.
  by destruct (queue st).
Qed.

(** The loop over the children acts at the back of the queue: taking the
    head of the queue before or after it makes no difference. *)
Lemma visit_pop st c : queue st ≠ [] → visit (pop st) c = pop (visit st c).
Proof.
  intros Hq. unfold visit, pop. simpl. case_bool_decide; [done|]. simpl.
  f_equal. by destruct (queue st).
Qed.

Lemma foldl_visit_pop cs : ∀ st,
  queue st ≠ [] → foldl visit (pop st) cs = pop (foldl visit st cs).
Proof.
  induction cs as [|c cs IH]; intros st Hq; simpl; [done|].
  rewrite visit_pop by done. apply IH. by apply visit_queue_nonempty.
Qed.

Lemma inv_root_visited dl ql st : inv dl ql st → root ∈ visited st.
Proof. intros I. rewrite (inv_tasks I). by left. Qed.

(** One child of the head of the queue. *)
Lemma visit_inv dl hd ql st c :
  inv dl (hd :: ql) st →
  c ∈ children_of h hd.1 →
  ∃ ql', inv dl (hd :: ql') (visit st c)
         ∧ c ∈ visited (visit st c)
         ∧ ∀ x, x ∈ visited st → x ∈ visited (visit st c).
Proof.
  intros I Hc. unfold visit. case_bool_decide as Hv.
  { exists ql. split; [exact I|]. split; [exact Hv|]. auto. }
  exists (ql ++ [(c, S hd.2)]). simpl.
  split; [|split; [apply elem_of_app; right; by left
                  |intros x Hx; apply elem_of_app; by left]].
  assert (Forall exact (dl ++ hd :: ql)) as He by apply I.
  assert (exact hd) as [Hhd _].
  { rewrite Forall_forall in He. apply He, elem_of_app. right. by left. }
  assert (exact (c, S hd.2)) as Hnew.
  { split; simpl; [by eapply path_child|]. intros k Hk.
    destruct (decide (S hd.2 ≤ k)%nat) as [|Hlt]; [done|]. exfalso. apply Hv.
    destruct k as [|k'].
    - apply path_zero in Hk as ->. by eapply inv_root_visited.
    - apply path_succ in Hk as (n & Hn & Hcn).
      apply (inv_closed I n); [|done].
      apply (inv_complete _ _ _ I k' n Hn). lia. }
  assert (dl ++ hd :: ql ++ [(c, S hd.2)] = (dl ++ hd :: ql) ++ [(c, S hd.2)]) as Eq.
  { by rewrite <- app_assoc. }
  split; simpl.
  - rewrite Eq, fmap_app. by rewrite <- (inv_visited I).
  - rewrite fmap_app. simpl. by rewrite (inv_queue I).
  - by rewrite (inv_tasks I).
  - apply NoDup_app. split; [apply I|]. split; [|apply NoDup_singleton].
    intros x Hx ->%list_elem_of_singleton. done.
  - intros x [Hx| ->%list_elem_of_singleton]%elem_of_app; [by apply I|].
    right. by eapply children_references.
  - rewrite Eq. apply Forall_app. split; [done|]. by apply Forall_singleton.
  - rewrite Eq. apply StronglySorted_app. split; [|split].
    + intros a b Ha ->%list_elem_of_singleton. unfold by_level. simpl.
      by apply (inv_front I a hd).
    + apply I.
    + repeat constructor.
  - intros a hd' Ha [= <-]. rewrite Eq in Ha.
    apply elem_of_app in Ha as [Ha| ->%list_elem_of_singleton]; [|simpl; lia].
    by apply (inv_front I a hd).
  - intros n c' Hn Hc'. apply elem_of_app. left. by apply (inv_closed I n).
Qed.

(** All the children of the head of the queue. *)
Lemma foldl_visit_inv dl hd cs : ∀ ql st,
  inv dl (hd :: ql) st →
  (∀ c, c ∈ cs → c ∈ children_of h hd.1) →
  ∃ ql', inv dl (hd :: ql') (foldl visit st cs)
         ∧ (∀ c, c ∈ cs → c ∈ visited (foldl visit st cs))
         ∧ ∀ x, x ∈ visited st → x ∈ visited (foldl visit st cs).
Proof.
  induction cs as [|c cs IH]; intros ql st I Hcs; simpl.
  - exists ql. split; [done|]. split; [|done]. intros c Hc. by apply elem_of_nil in Hc.
  - destruct (visit_inv dl hd ql st c I) as (ql1 & I1 & Hc1 & Hmono1).
    { apply Hcs. by left. }
    destruct (IH ql1 (visit st c) I1) as (ql2 & I2 & Hc2 & Hmono2).
    { intros c' Hc'. apply Hcs. by right. }
    exists ql2. split; [done|]. split.
    + intros c' [->|Hc']%elem_of_cons; [by apply Hmono2 | by apply Hc2].
    + intros x Hx. by apply Hmono2, Hmono1.
Qed.

(** The head leaves the queue once all its children are visited. *)
Lemma inv_pop dl hd ql st :
  inv dl (hd :: ql) st →
  (∀ c, c ∈ children_of h hd.1 → c ∈ visited st) →
  inv (dl ++ [hd]) ql (pop st).
Proof.
  intros I Hcs.
  assert ((dl ++ [hd]) ++ ql = dl ++ hd :: ql) as Eq by by rewrite <- app_assoc.
  split; simpl; rewrite ?Eq; try apply I.
  - by rewrite (inv_queue I).
  - intros a hd' Ha Hhd'. destruct ql as [|hd'' ql]; [done|]. injection Hhd' as ->.
    pose proof (inv_front I a hd Ha eq_refl) as Hf.
    pose proof (inv_sorted I) as Hs. apply StronglySorted_app_1_r in Hs.
    apply StronglySorted_cons in Hs as [Hs _]. apply Forall_cons_1 in Hs as [Hs _].
    unfold by_level in Hs. lia.
  - intros n c. rewrite fmap_app. intros [Hn| ->%list_elem_of_singleton]%elem_of_app Hc.
    + by apply (inv_closed I n).
    + by apply Hcs.
Qed.

Lemma bfs_loop_step st n q fuel :
  queue st = n :: q →
  bfs_loop (S fuel) h st = bfs_loop fuel h (pop (foldl visit st (children_of h n))).
Proof.
  intros Hq. simpl. rewrite Hq. rewrite <- foldl_visit_pop by by rewrite Hq.
  unfold pop. by rewrite Hq.
Qed.

Lemma inv_length dl ql st :
  inv dl ql st → (List.length dl + List.length ql ≤ S (List.length (references h)))%nat.
Proof.
  intros I.
  assert (List.length (visited st) ≤ List.length (root :: references h))%nat as Hl.
  { apply submseteq_length, NoDup_submseteq; apply I. }
  rewrite (inv_visited I), length_fmap, length_app in Hl. simpl in Hl. lia.
Qed.

(** The loop ends, with an empty queue, when it is given an iteration for
    each node that can still enter the queue. *)
Lemma bfs_loop_correct fuel : ∀ dl ql st,
  inv dl ql st →
  (S (List.length (references h)) ≤ fuel + List.length dl)%nat →
  ∃ dl' st', bfs_loop fuel h st = Some st' ∧ inv dl' [] st'.
Proof.
  induction fuel as [|fuel IH]; intros dl ql st I Hfuel.
  - pose proof (inv_length _ _ _ I) as Hl.
    destruct ql as [|hd ql]; [|simpl in *; lia].
    exists dl, st. split; [|done]. simpl. by rewrite (inv_queue I).
  - destruct ql as [|hd ql].
    { exists dl, st. split; [|done]. simpl. by rewrite (inv_queue I). }
    rewrite (bfs_loop_step st hd.1 (ql.*1)) by apply I.
    destruct (foldl_visit_inv dl hd (children_of h hd.1) ql st I)
      as (ql' & I' & Hcs & _); [done|].
    apply (IH (dl ++ [hd]) ql').
    + by apply inv_pop.
    + rewrite length_app. simpl. lia.
Qed.

Lemma inv_init :
  inv [] [(root, 0%nat)] {| visited := [root]; queue := [root]; tasks := [] |}.
Proof.
  split; simpl; try done.
  - apply NoDup_singleton.
  - intros x ->%list_elem_of_singleton. by left.
  - apply Forall_singleton. split; [constructor | simpl; lia].
  - repeat constructor.
  - intros a hd ->%list_elem_of_singleton [= <-]. simpl. lia.
  - intros n c Hn. by apply elem_of_nil in Hn.
Qed.

Lemma sorted_lookup (l : list (node_id * nat)) (i j : nat) a b :
  StronglySorted by_level l → l !! i = Some a → l !! j = Some b → (i ≤ j)%nat →
  (a.2 ≤ b.2)%nat.
Proof.
  intros Hs Hi Hj Hij. destruct (decide (i = j)) as [->|Hne].
  { rewrite Hi in Hj. injection Hj as ->. done. }
  rewrite <- (take_drop j l) in Hs.
  apply (StronglySorted_app_1_elem_of _ _ _ a b Hs).
  - apply elem_of_take. exists i. split; [done|lia].
  - apply list_elem_of_lookup. exists 0%nat. rewrite lookup_drop.
    by rewrite Nat.add_0_r.
Qed.

(** What the invariant says when the queue is empty. *)
Lemma inv_final dl st :
  inv dl [] st →
  queue st = []
  ∧ NoDup (visited st)
  ∧ (∀ x, x ∈ visited st ↔ reachable h root x)
  ∧ breadth_first h root (visited st)
  ∧ visited st = root :: tasks st.
Proof.
  intros I. pose proof (inv_visited I) as Hv. rewrite app_nil_r in Hv.
  pose proof (inv_exact I) as He. rewrite app_nil_r, Forall_forall in He.
  split; [apply I|]. split; [apply I|]. split; [|split; [|apply I]].
  - intros x. split.
    + rewrite Hv. intros ([x' d] & -> & Hin)%list_elem_of_fmap.
      exists d. by apply (He _ Hin).
    + intros [k Hk]. rewrite Hv. by apply (inv_complete _ _ _ I k x Hk).
  - intros i j x y Hi Hj Hij k Hk. rewrite Hv in Hi, Hj.
    apply list_lookup_fmap_Some in Hi as ([x' dx] & -> & Hi).
    apply list_lookup_fmap_Some in Hj as ([y' dy] & -> & Hj).
    pose proof (inv_sorted I) as Hs. rewrite app_nil_r in Hs.
    pose proof (sorted_lookup _ _ _ _ _ Hs Hi Hj Hij) as Hle.
    destruct (He _ (list_elem_of_lookup_2 _ _ _ Hi)) as [Hpx _].
    destruct (He _ (list_elem_of_lookup_2 _ _ _ Hj)) as [_ Hmy].
    simpl in *. exists dx. split; [|done]. specialize (Hmy k Hk). lia.
Qed.
(** [bfs] ends, with the invariant and an empty queue. *)
Lemma bfs_ends : ∃ dl st, bfs h root = Some st ∧ inv dl [] st.
Proof.
  apply (bfs_loop_correct (S (List.length (references h))) [] [(root, 0%nat)]).
  - apply inv_init.
  - simpl. lia.
Qed.

End Traversal.

(** C3.  [bfs] ends for every heap and every root.  It visits the nodes
    reachable from the root and no others, each once, in order of distance
    from the root; the tasks it creates are, in order, the visited nodes
    after the root, so that every reachable node other than the root has
    one task and the root has none.  The nodes are told apart by their
    identity: two distinct reachable nodes have their tasks at two places of
    the list even when their names and feature flags, and so their hashes,
    are the same. *)
Theorem bfs_visits_reachable_once (h : heap) (root : node_id) :
  ∃ st, ComputationalGraph.bfs h root = Some st
        ∧ ComputationalGraph.queue st = []
        ∧ NoDup (ComputationalGraph.visited st)
        ∧ (∀ x, x ∈ ComputationalGraph.visited st ↔ reachable h root x)
        ∧ breadth_first h root (ComputationalGraph.visited st)
        ∧ ComputationalGraph.visited st = (root :: ComputationalGraph.tasks st)
        ∧ (root ∉ ComputationalGraph.tasks st)
        ∧ NoDup (ComputationalGraph.tasks st)
        ∧ (∀ x, x ∈ ComputationalGraph.tasks st ↔ reachable h root x ∧ x ≠ root)
        ∧ (∀ a b na nb,
             h !! a = Some na → h !! b = Some nb →
             ComputationalNode.__hash__ na = ComputationalNode.__hash__ nb →
             a ≠ b → a ≠ root → b ≠ root →
             reachable h root a → reachable h root b →
             ∃ i j : nat, i ≠ j
                    ∧ ComputationalGraph.tasks st !! i = Some a
                    ∧ ComputationalGraph.tasks st !! j = Some b).
Proof.
  destruct (bfs_ends h root) as (dl & st & Hrun & I).
  exists st. split; [exact Hrun|].
  destruct (inv_final h root dl st I) as (Hq & Hnd & Hreach & Hbf & Hv).
  repeat (split; [done|]).
  rewrite Hv in Hnd. apply NoDup_cons in Hnd as [Hroot Hnd].
  split; [done|]. split; [done|].
  assert (∀ x, x ∈ ComputationalGraph.tasks st ↔ reachable h root x ∧ x ≠ root)
    as Htasks.
  { intros x. rewrite <- Hreach, Hv, elem_of_cons. split.
    - intros Hx. split; [by right|]. by intros ->.
    - by intros [[->|Hx] Hne]. }
  split; [exact Htasks|].
  intros a b na nb _ _ _ Hab Ha Hb Hra Hrb.
  destruct (list_elem_of_lookup_1 _ a (proj2 (Htasks a) (conj Hra Ha))) as [i Hi].
  destruct (list_elem_of_lookup_1 _ b (proj2 (Htasks b) (conj Hrb Hb))) as [j Hj].
  exists i, j. split; [|done]. intros ->. rewrite Hi in Hj. by injection Hj.
Qed.

(** Two nodes with the same name and the same flag, hence the same hash,
    are both visited and each gets its task. *)
Example twins_scheduled_separately :
  (∀ n1 n2, Tests.twins !! Tests.twin1.1 = Some n1 →
            Tests.twins !! Tests.twin2.1 = Some n2 →
            ComputationalNode.__hash__ n1 = ComputationalNode.__hash__ n2)
  ∧ Tests.twin1.1 ≠ Tests.twin2.1
  ∧ ComputationalGraph.bfs Tests.twins (ComputationalGraph.root Tests.twin_graph.1)
    = Some {| ComputationalGraph.visited :=
                [ComputationalGraph.root Tests.twin_graph.1;
                 Tests.twin1.1; Tests.twin2.1];
              ComputationalGraph.queue := [];
              ComputationalGraph.tasks := [Tests.twin1.1; Tests.twin2.1] |}.
Proof.
  split; [|split].
  - intros n1 n2 H1 H2. vm_compute in H1, H2.
    injection H1 as <-. injection H2 as <-. reflexivity.
  - vm_compute. discriminate.
  - vm_compute. reflexivity.
Qed.

(** ** Properties of the run of a graph *)

(** The loop [for measurement in measurements: perf_stats.update(measurement)]
    folds the measurements into [perf_stats], each over what came before. *)
Lemma for_each_update (ms : list metrics) : ∀ fr,
  for_each ms ComputationalGraph.update fr
  = (Returns tt, set_perf_stats (fun p => foldl (fun p m => m ∪ p) p ms) fr).
Proof.
  induction ms as [|m ms IH]; intros fr; simpl.
  - by destruct fr.
  - cbv [bind ComputationalGraph.update modify]. by rewrite IH.
Qed.

(** A key that no measurement holds keeps the value it had. *)
Lemma merge_lookup_absent (ms : list metrics) : ∀ (p : metrics) (k : string),
  (∀ m, m ∈ ms → m !! k = None) →
  foldl (fun p m => m ∪ p) p ms !! k = p !! k.
Proof.
  induction ms as [|m ms IH]; intros p k Hms; simpl; [done|].
  rewrite IH by (intros m' Hm'; apply Hms; by right).
  apply lookup_union_r, Hms. by left.
Qed.

(** A key has the value of the last measurement that holds it. *)
Lemma merge_lookup_last (before after : list metrics) (m p : metrics) k v :
  m !! k = Some v →
  (∀ m', m' ∈ after → m' !! k = None) →
  foldl (fun p m => m ∪ p) p (before ++ m :: after) !! k = Some v.
Proof.
  intros Hm Hafter. rewrite foldl_app. simpl.
  rewrite merge_lookup_absent by done. by apply lookup_union_Some_l.
Qed.

(** C6.  [run] on a graph awaits the tasks that [bfs] created.  When the
    gathering returns the measurements of the tasks, [run] returns metrics
    that hold ["dag.execution"], with the time elapsed since the start of
    [run], and, under every other key, the value of the
    last measurement, in task order, that holds the key (so that of two
    tasks whose nodes share a name, the later one prevails on the keys they
    both write), and nothing under a key that no measurement holds.  When
    the gathering raises or never completes, so does [run]. *)
Theorem graph_run_merges_metrics self record fm loop fr :
  ∃ st,
    ComputationalGraph.bfs (nodes (the_world fr)) (ComputationalGraph.root self) = Some st
    ∧ let gathered :=
        gather_tasks loop (ComputationalGraph.tasks st)
          (tick (set_output ∅ (the_world fr))) in
      let r := (ComputationalGraph.run self record fm loop fr).1 in
      match gathered.1 with
      | Returns measurements =>
          ∃ perf_stats out,
            r = Returns (perf_stats, out)
            ∧ perf_stats !! "dag.execution"
              = Some (fmt3 (clock gathered.2 (ticks gathered.2)
                            - clock (the_world fr) (ticks (the_world fr))))
            ∧ (∀ before m after key value,
                 measurements = before ++ m :: after →
                 m !! key = Some value →
                 (∀ m', m' ∈ after → m' !! key = None) →
                 key ≠ "dag.execution" →
                 perf_stats !! key = Some value)
            ∧ (∀ key,
                 (∀ m, m ∈ measurements → m !! key = None) →
                 key ≠ "dag.execution" →
                 perf_stats !! key = None)
      | Raises e => r = Raises e
      | Hangs => r = Hangs
      end.
Proof.
  destruct (bfs_ends (nodes (the_world fr)) (ComputationalGraph.root self))
    as (dl & st & Hbfs & _).
  exists st. split; [exact Hbfs|].
  unfold ComputationalGraph.run. cbv [bind modify time_time]. simpl.
  rewrite Hbfs.
  change {| nodes := nodes (the_world fr); output := ∅;
            clock := clock (the_world fr); ticks := S (ticks (the_world fr)) |}
    with (tick (set_output ∅ (the_world fr))).
  destruct (gather_tasks loop (ComputationalGraph.tasks st) _) as [[ms|e|] w];
    simpl; [|done..].
  rewrite for_each_update. simpl.
  eexists _, _. split; [reflexivity|]. split; [|split].
  - by rewrite lookup_insert_eq.
  - intros before m after key value -> Hm Hafter Hne.
    rewrite lookup_insert_ne by done. by apply merge_lookup_last.
  - intros key Hms Hne. rewrite lookup_insert_ne by done.
    by rewrite merge_lookup_absent.
Qed.

(** Two tasks whose nodes share the name [twin]: both write
    ["twin.execution"], and the value of the later task is the one that the
    graph returns. *)
Example twins_last_writer_wins :
  match (Serial.gather ∅ Tests.flag_x [Tests.twin1.1; Tests.twin2.1]
           (tick (set_output ∅ (Tests.world_of Tests.twins)))).1,
        (ComputationalGraph.run Tests.twin_graph.1 ∅ Tests.flag_x
           (Serial.loop ∅ Tests.flag_x) (Tests.frame_of Tests.twins)).1
  with
  | Returns [m1; m2], Returns (perf_stats, _) =>
      m1 !! "twin.execution" = Some "0.007"
      ∧ m2 !! "twin.execution" = Some "0.015"
      ∧ perf_stats !! "twin.execution" = Some "0.015"
      ∧ perf_stats !! "dag.execution" = Some "0.081"
  | _, _ => False
  end.
Proof. vm_compute. repeat split. Qed.

(** [test_linear_graph_execution]: the three nodes write their entry of
    [output], in the order of the chain, and their events are set. *)
Example linear_chain_runs :
  match ComputationalGraph.run Tests.graph.1
          {[ "key1" := VStr "value1"; "key2" := VStr "value2" ]}
          Tests.no_flags
          (Serial.loop {[ "key1" := VStr "value1"; "key2" := VStr "value2" ]}
             Tests.no_flags)
          (Tests.frame_of Tests.linear)
  with
  | (Returns (perf_stats, out), fr) =>
      out = {[ "start_node" := VStr "initiator";
               "middle_node" := VStr "progressing";
               "end_node" := VStr "completion" ]}
      ∧ is_set (nodes (the_world fr)) Tests.node1.1 = true
      ∧ is_set (nodes (the_world fr)) Tests.node2.1 = true
      ∧ is_set (nodes (the_world fr)) Tests.node3.1 = true
  | _ => False
  end.
Proof. vm_compute. repeat split. Qed.

(** ** More properties of the feature-flag store *)

Section FlagStoreMore.
Import PyStr FeatureFlagMgr.

Lemma refresh_lookup lower self environ self' :
  _update_flags_from_env_with lower self environ = Returns self' →
  ∀ name, flags self' !! name
          = match designated lower (items environ) name with
            | Some b => Some b
            | None => flags self !! name
            end.
Proof.
  intros Hpass. unfold _update_flags_from_env_with in Hpass.
  destruct (update_flags_lookup lower (items environ) self) as (s & Hs & L).
  rewrite Hs in Hpass. destruct (ending environ); [done|].
  by injection Hpass as <-.
Qed.

(** A pass that has returned returns again, with the same store. *)
Lemma refresh_idempotent lower self environ self' :
  _update_flags_from_env_with lower self environ = Returns self' →
  _update_flags_from_env_with lower self' environ = Returns self'.
Proof.
  intros Hpass. pose proof (refresh_lookup _ _ _ _ Hpass) as L1.
  destruct (refresh_outcome lower self environ) as (s1 & _ & H1).
  destruct (refresh_outcome lower self' environ) as (s2 & Hs2 & H2).
  rewrite Hpass in H1. rewrite H2.
  destruct (ending environ); [done|]. f_equal.
  apply flags_eq. intros name.
  destruct (update_flags_lookup lower (items environ) self') as (s & Hs & L2).
  rewrite Hs2 in Hs. injection Hs as <-. rewrite L2, L1.
  by destruct (designated lower (items environ) name).
Qed.

(** A pass that does not return raises what the iteration raises. *)
Lemma refresh_raises lower self environ :
  (∃ self', _update_flags_from_env_with lower self environ = Returns self'
            ∧ ending environ = None)
  ∨ (∃ e, _update_flags_from_env_with lower self environ = Raises e
          ∧ ending environ = Some e).
Proof.
  destruct (refresh_outcome lower self environ) as (self' & _ & ->).
  destruct (ending environ) as [e|]; [right|left]; by eexists.
Qed.

Lemma lower_char_idemp c : lower_char (lower_char c) = lower_char c.
Proof.
  destruct (lower_char_cases c) as [[E _]|H].
  - by rewrite E.
  - by apply upper_lower_lower in H as [_ ?].
Qed.

Lemma lower_idemp s : lower (lower s) = lower s.
Proof.
  induction s as [|c s IH]; simpl; [done|]. by rewrite lower_char_idemp, IH.
Qed.

Lemma lower_app s1 s2 : lower (s1 +:+ s2) = lower s1 +:+ lower s2.
Proof. induction s1 as [|c s1 IH]; simpl; [done|]. by rewrite IH. Qed.

(** The part of a lower-cased name behind the prefix is in lower case. *)
Lemma suffix_lower key suffix :
  lower key = FEATURE_FLAG_PREFIX +:+ suffix → lower suffix = suffix.
Proof.
  intros E. pose proof (lower_idemp key) as H.
  rewrite E, lower_app in H.
  by apply (inj (String.app FEATURE_FLAG_PREFIX)) in H.
Qed.

Lemma refresh_lowercase_keys self environ self' :
  lowercase_keys self →
  _update_flags_from_env self environ = Returns self' →
  lowercase_keys self'.
Proof.
  intros Hl Hrun name Hs.
  rewrite (refresh_lookup _ _ _ _ Hrun) in Hs.
  destruct (designated lower (items environ) name) as [b|] eqn:E; [|by apply Hl].
  apply designated_Some in E as (k & v & _ & E & _). by eapply suffix_lower.
Qed.

Lemma updater_lowercase_keys snapshots : ∀ self self',
  lowercase_keys self → updater self snapshots = Returns self' → lowercase_keys self'.
Proof.
  unfold updater.
  induction snapshots as [|environ snapshots IH]; intros self self' Hl;
    cbn [updater_with].
  - by intros [= <-].
  - destruct (_update_flags_from_env_with lower self environ) as [s| |] eqn:E;
      [|done..].
    apply IH. by eapply refresh_lowercase_keys.
Qed.

Lemma init_lowercase_keys : lowercase_keys FeatureFlagMgr.__init__.
Proof. intros name [b Hb]. simpl in Hb. by rewrite lookup_empty in Hb. Qed.

(** A store with lower-case names answers [false] for any other name. *)
Lemma lowercase_keys_disabled self feature_name :
  lowercase_keys self → lower feature_name ≠ feature_name →
  is_enabled self feature_name = false.
Proof.
  intros Hl Hname. unfold is_enabled.
  destruct (flags self !! feature_name) as [b|] eqn:E; [|done].
  destruct Hname. apply Hl. by eexists.
Qed.

Lemma designated_perm lower yielded1 yielded2 name :
  yielded1 ≡ₚ yielded2 →
  NoDup ((lower ∘ fst) <$> yielded1) →
  designated lower yielded1 name = designated lower yielded2 name.
Proof.
  induction 1 as [|[k v] l1 l2 Hp IH|[k1 v1] [k2 v2] l|l1 l2 l3 H1 IH1 H2 IH2];
    intros Hnd.
  - done.
  - cbn [designated]. rewrite IH; [done|].
    rewrite fmap_cons in Hnd. by apply NoDup_cons in Hnd as [_ ?].
  - cbn [designated]. destruct (designated lower l name); [done|].
    repeat case_decide; try done.
    rewrite !fmap_cons in Hnd. apply NoDup_cons in Hnd as [Hnd _].
    destruct Hnd. apply elem_of_cons. left. simpl. congruence.
  - rewrite IH1 by done. apply IH2.
    by rewrite <- H1.
Qed.

(** X1.  While the environment does not change, the updater thread changes
    nothing after its first pass: the store after any number of passes over
    one environment is the store after one pass. *)
Theorem updater_stable_on_unchanged_environment self environ k :
  updater self (replicate (S k) environ) = _update_flags_from_env self environ.
Proof.
  unfold updater, _update_flags_from_env. cbn [replicate updater_with].
  destruct (_update_flags_from_env_with lower self environ) as [self'|e|] eqn:Hrun;
    [|done..].
  apply refresh_idempotent in Hrun.
  induction k as [|k IH]; cbn [replicate updater_with]; [done|]. by rewrite Hrun.
Qed.

(** X2.  The updater thread never removes a flag, with [str.lower] or any
    other function as the lower-casing.  When the iteration over the
    environment runs to its end in every pass, the passes return; when they
    return, a name that was in the store is in the store, and a flag that
    no variable of the passes names answers as before, so that unsetting
    the variable of a flag does not disable the flag.  Otherwise the
    thread ends with the exception that the iteration of one of the passes
    has raised. *)
Theorem updater_never_removes_flags lower snapshots : ∀ self,
  ((∀ environ, environ ∈ snapshots → ending environ = None) →
   ∃ self', updater_with lower self snapshots = Returns self')
  ∧ match updater_with lower self snapshots with
    | Returns self' =>
        (∀ name, is_Some (flags self !! name) → is_Some (flags self' !! name))
        ∧ (∀ name,
             (∀ environ key value,
                 environ ∈ snapshots → (key, value) ∈ items environ →
                 lower key ≠ FEATURE_FLAG_PREFIX +:+ name) →
             is_enabled self' name = is_enabled self name)
    | Raises e => ∃ environ, environ ∈ snapshots ∧ ending environ = Some e
    | Hangs => False
    end.
Proof.
  induction snapshots as [|environ snapshots IH]; intros self; cbn [updater_with].
  - split; [by eexists|done].
  - destruct (refresh_raises lower self environ) as [(s & Hs & Hend)|(e & He & Hend)].
    + rewrite Hs. destruct (IH s) as [Hret Hcases]. split.
      * intros Hall. apply Hret. intros env Hin. apply Hall. by right.
      * pose proof (refresh_lookup _ _ _ _ Hs) as L.
        destruct (updater_with lower s snapshots) as [self'|e|]; [|..|done].
        -- destruct Hcases as [Hkeep Hsame]. split.
           ++ intros name Hname. apply Hkeep. rewrite L.
              by destruct (designated lower (items environ) name).
           ++ intros name Hn. rewrite Hsame.
              ** unfold is_enabled. rewrite L, designated_None; [done|].
                 intros key value Hin. apply (Hn environ key value); [by left | done].
              ** intros env key value Hin. apply Hn. by right.
        -- destruct Hcases as (env & Hin & Hend'). exists env. split; [by right|done].
    + rewrite He. split.
      * intros Hall. rewrite Hall in Hend by by left. done.
      * exists environ. split; [by left|done].
Qed.

(** X3.  The names of the store are in lower case, whatever the
    environment: on a store that the updater thread has filled, starting
    from the constructor, [is_enabled] answers [false] for every name that
    holds an upper-case letter. *)
Theorem is_enabled_needs_lowercase_name snapshots self feature_name :
  updater FeatureFlagMgr.__init__ snapshots = Returns self →
  lower feature_name ≠ feature_name →
  is_enabled self feature_name = false.
Proof.
  intros Hrun Hname. apply lowercase_keys_disabled; [|done].
  exact (updater_lowercase_keys snapshots FeatureFlagMgr.__init__ self
           init_lowercase_keys Hrun).
Qed.

(** X4.  With [str.lower] or any other function as the lower-casing: when
    no two variables that a pass meets have the same lower-cased name, the
    result of the pass does not depend on the order in which the
    environment is iterated. *)
Theorem refresh_order_independent lower self environ1 environ2 :
  items environ1 ≡ₚ items environ2 →
  ending environ1 = ending environ2 →
  NoDup ((lower ∘ fst) <$> items environ1) →
  _update_flags_from_env_with lower self environ1
  = _update_flags_from_env_with lower self environ2.
Proof.
  intros Hp Hend Hnd.
  destruct (refresh_outcome lower self environ1) as (s1 & H1 & ->).
  destruct (refresh_outcome lower self environ2) as (s2 & H2 & ->).
  rewrite <- Hend. destruct (ending environ1); [done|]. f_equal.
  apply flags_eq. intros name.
  destruct (update_flags_lookup lower (items environ1) self) as (s & Hs & L1).
  rewrite H1 in Hs. injection Hs as <-.
  destruct (update_flags_lookup lower (items environ2) self) as (s & Hs & L2).
  rewrite H2 in Hs. injection Hs as <-.
  by rewrite L1, L2, (designated_perm _ _ _ name Hp Hnd).
Qed.

End FlagStoreMore.

(** [FeatureFlagMgrTest]: after a pass over the environment of the test,
    [experiment] is enabled and [Experiment] is not. *)
Lemma is_enabled_needs_lowercase_name_witness :
  ∃ self,
    FeatureFlagMgr.updater FeatureFlagMgr.__init__ [Scenarios.environ] = Returns self
    ∧ FeatureFlagMgr.is_enabled self "experiment" = true
    ∧ FeatureFlagMgr.is_enabled self "Experiment" = false.
Proof.
  eexists. split; [vm_compute; reflexivity|]. split; [vm_compute; reflexivity|].
  apply (is_enabled_needs_lowercase_name [Scenarios.environ]).
  - vm_compute. reflexivity.
  - intros E. vm_compute in E. discriminate E.
Defined.

(** The environment of the test with its first two variables exchanged,
    under the lower-casing of ASCII strings. *)
Lemma refresh_order_independent_witness :
  FeatureFlagMgr._update_flags_from_env FeatureFlagMgr.__init__ Scenarios.environ
  = FeatureFlagMgr._update_flags_from_env FeatureFlagMgr.__init__
      {| FeatureFlagMgr.items :=
           [ ("feature_flag_beta_feature", "false");
             ("feature_flag_alpha_feature", "True");
             ("feature_flag_experiment", "1") ];
         FeatureFlagMgr.ending := None |}.
Proof.
  apply (refresh_order_independent PyStr.lower).
  - apply perm_swap.
  - reflexivity.
  - apply (bool_decide_unpack _). vm_compute. exact I.
Defined.

(** ** More properties of the construction of graphs *)

Section ConstructionMore.
Import ComputationalNode.

Lemma set_add_elem_of (x y : node_id) s : y ∈ set_add x s ↔ y = x ∨ y ∈ s.
Proof.
  unfold set_add. case_bool_decide as H.
  - split; [by right|]. by intros [->|].
  - rewrite elem_of_app, list_elem_of_singleton. tauto.
Qed.

Lemma set_add_NoDup (x : node_id) s : NoDup s → NoDup (set_add x s).
Proof.
  intros Hs. unfold set_add. case_bool_decide as H; [done|].
  apply NoDup_app. split; [done|]. split; [|apply NoDup_singleton].
  intros y Hy ->%list_elem_of_singleton. done.
Qed.

Lemma set_add_idemp (x : node_id) s : set_add x (set_add x s) = set_add x s.
Proof.
  unfold set_add at 1. rewrite bool_decide_eq_true_2; [done|]. apply set_add_elem.
Qed.

Lemma with_child_idemp c n : with_child c (with_child c n) = with_child c n.
Proof. unfold with_child. simpl. by rewrite set_add_idemp. Qed.

Lemma add_child_lookup (p c x : node_id) (h : heap) :
  add_child p c h !! x = if decide (x = p) then with_child c <$> h !! x else h !! x.
Proof.
  unfold add_child. case_decide as E.
  - subst. by rewrite lookup_alter_eq.
  - by rewrite lookup_alter_ne.
Qed.

(** X5.  [add_child] changes one attribute of one object: every other
    object is as it was, and so is every attribute of the parent but
    [children].  The children of the parent are then the child and the
    children it had; a set without repetition stays so; and adding the same
    child again changes nothing. *)
Theorem add_child_effect (h : heap) (p c : node_id) :
  (∀ x, x ≠ p → add_child p c h !! x = h !! x)
  ∧ set_children [] <$> add_child p c h = set_children [] <$> h
  ∧ (∀ y, is_Some (h !! p) →
          y ∈ children_of (add_child p c h) p ↔ y = c ∨ y ∈ children_of h p)
  ∧ (NoDup (children_of h p) → NoDup (children_of (add_child p c h) p))
  ∧ add_child p c (add_child p c h) = add_child p c h.
Proof.
  split; [|split; [|split; [|split]]].
  - intros x Hx. rewrite add_child_lookup. by case_decide.
  - apply map_eq. intros x. rewrite !lookup_fmap, add_child_lookup.
    case_decide; [|done]. by destruct (h !! x).
  - intros y [n Hn]. unfold children_of. rewrite add_child_lookup.
    rewrite decide_True by done. rewrite Hn. simpl. apply set_add_elem_of.
  - unfold children_of. rewrite add_child_lookup, decide_True by done.
    destruct (h !! p); simpl; [apply set_add_NoDup | done].
  - apply map_eq. intros x. rewrite !add_child_lookup.
    case_decide; [|done]. destruct (h !! x); simpl; [|done].
    by rewrite with_child_idemp.
Qed.

Lemma add_children_lookup (self x : node_id) ps : ∀ h : heap,
  foldl (fun h parent => add_child parent self h) h ps !! x
  = if decide (x ∈ ps) then with_child self <$> h !! x else h !! x.
Proof.
  induction ps as [|q ps IH]; intros h; cbn [foldl].
  - rewrite decide_False; [done|]. apply not_elem_of_nil.
  - rewrite IH, add_child_lookup.
    destruct (decide (x = q)) as [->|Hne].
    + rewrite (decide_True (P := q ∈ q :: ps)) by by left.
      case_decide; [|done]. destruct (h !! q); simpl; [|done].
      by rewrite with_child_idemp.
    + destruct (decide (x ∈ ps)) as [Hin|Hnin].
      * rewrite decide_True; [done|]. by right.
      * rewrite decide_False; [done|]. by intros [?|?]%elem_of_cons.
Qed.

(** The identity of a new object is not in use. *)
Lemma init_fresh (h : heap) name ps ff fn kw cond :
  h !! (__init__ h name ps ff fn kw cond).1 = None.
Proof. simpl. apply not_elem_of_dom, is_fresh. Qed.

(** The heap after the constructor, object by object. *)
Lemma init_lookup (h : heap) name ps ff fn kw cond (x : node_id) :
  (∀ p, p ∈ default [] ps → is_Some (h !! p)) →
  let self := (__init__ h name ps ff fn kw cond).1 in
  (__init__ h name ps ff fn kw cond).2 !! x
  = if decide (x = self)
    then Some {| name := name; parents := default [] ps; feature_flag := ff;
                 exe_function := fn; exe_kwargs := default ∅ kw;
                 exe_condition := cond; children := []; _event := None |}
    else if decide (x ∈ default [] ps) then with_child self <$> h !! x
    else h !! x.
Proof.
  intros Hps self.
  assert (h !! self = None) as Hfresh by apply init_fresh.
  assert (self ∉ default [] ps) as Hself.
  { intros Hin. apply Hps in Hin as [n Hn]. by rewrite Hfresh in Hn. }
  unfold __init__. cbn [snd].
  replace (match ps with Some l => l | None => [] end) with (default [] ps)
    by by destruct ps.
  replace (match kw with Some d => d | None => ∅ end) with (default ∅ kw)
    by by destruct kw.
  fold self. destruct (decide (x = self)) as [->|Hne].
  - rewrite lookup_alter_eq, add_children_lookup, decide_False by done.
    by rewrite lookup_insert_eq.
  - rewrite lookup_alter_ne, add_children_lookup by done.
    by rewrite lookup_insert_ne.
Qed.

(** X6.  The constructor, called with parents that exist, makes one new
    object, whose identity was not in use: it has the attributes given
    (no parents and no keyword arguments when [None] is given), no children
    and no event.  Each parent gets the new object among its children and
    is otherwise as it was; every other object is as it was. *)
Theorem init_effect (h : heap) name ps ff fn kw cond :
  (∀ p, p ∈ default [] ps → is_Some (h !! p)) →
  let self := (__init__ h name ps ff fn kw cond).1 in
  let h' := (__init__ h name ps ff fn kw cond).2 in
  h !! self = None
  ∧ h' !! self
    = Some {| name := name; parents := default [] ps; feature_flag := ff;
              exe_function := fn; exe_kwargs := default ∅ kw;
              exe_condition := cond; children := []; _event := None |}
  ∧ (∀ p, p ∈ default [] ps → h' !! p = with_child self <$> h !! p)
  ∧ (∀ x, x ≠ self → x ∉ default [] ps → h' !! x = h !! x).
Proof.
  intros Hps self h'.
  pose proof (init_fresh h name ps ff fn kw cond) as Hfresh.
  split; [exact Hfresh|]. split; [|split].
  - unfold h'. rewrite init_lookup by done. by rewrite decide_True.
  - intros p Hp. unfold h'. rewrite init_lookup by done.
    rewrite decide_False, decide_True; [done..|].
    intros E. apply Hps in Hp as [n Hn]. rewrite E in Hn.
    unfold self in Hn. by rewrite Hfresh in Hn.
  - intros x Hx Hnp. unfold h'. rewrite init_lookup by done.
    by rewrite !decide_False.
Qed.

Lemma init_children_self (h : heap) name ps ff fn kw cond :
  (∀ p, p ∈ default [] ps → is_Some (h !! p)) →
  children_of (__init__ h name ps ff fn kw cond).2 (__init__ h name ps ff fn kw cond).1
  = [].
Proof.
  intros Hps. unfold children_of. rewrite init_lookup by done.
  by rewrite decide_True.
Qed.

Lemma init_children_other (h : heap) name ps ff fn kw cond (n c : node_id) :
  (∀ p, p ∈ default [] ps → is_Some (h !! p)) →
  n ≠ (__init__ h name ps ff fn kw cond).1 →
  c ≠ (__init__ h name ps ff fn kw cond).1 →
  c ∈ children_of (__init__ h name ps ff fn kw cond).2 n →
  c ∈ children_of h n.
Proof.
  intros Hps Hn Hc. unfold children_of. rewrite init_lookup by done.
  rewrite decide_False by done.
  case_decide; [|done]. destruct (h !! n); simpl; [|done].
  intros [?|?]%set_add_elem_of; done.
Qed.

(** No chain of references leaves a node without children. *)
Lemma path_from_childless (h : heap) (x : node_id) k y :
  children_of h x = [] → path h x k y → k = 0%nat ∧ y = x.
Proof.
  intros Hx. induction 1 as [|k n c _ [_ ->] Hc]; [done|].
  rewrite Hx in Hc. by apply elem_of_nil in Hc.
Qed.

Lemma acyclic_empty : acyclic ∅.
Proof.
  intros x k H.
  assert (children_of ∅ x = []) as Hx by (unfold children_of; by rewrite lookup_empty).
  by destruct (path_from_childless ∅ x (S k) x Hx H).
Qed.

(** X7.  The constructor makes no cycle: when the child references of the
    heap have no cycle and the parents exist, the child references of the
    heap with the new object have no cycle. *)
Theorem init_keeps_acyclic (h : heap) name ps ff fn kw cond :
  (∀ p, p ∈ default [] ps → is_Some (h !! p)) →
  acyclic h →
  acyclic (__init__ h name ps ff fn kw cond).2.
Proof.
  intros Hps Hh x k Hcycle.
  pose proof (init_children_self h name ps ff fn kw cond Hps) as Hself.
  set (self := (__init__ h name ps ff fn kw cond).1) in *.
  set (h' := (__init__ h name ps ff fn kw cond).2) in *.
  destruct (decide (x = self)) as [->|Hx].
  { by destruct (path_from_childless h' self (S k) self Hself Hcycle). }
  assert (∀ j y, path h' x j y → y ≠ self → path h x j y) as Hpath.
  { induction 1 as [|j n c Hn IH Hc]; intros Hy; [constructor|].
    assert (n ≠ self) as Hne.
    { intros ->. rewrite Hself in Hc. by apply elem_of_nil in Hc. }
    apply path_child with n; [by apply IH|].
    by apply (init_children_other h name ps ff fn kw cond n c). }
  apply (Hh x k). by apply Hpath.
Qed.

(** X8.  The [event] property returns without raising.  It leaves an event
    on the object, created unset when there was none, and changes nothing
    else of the object; reading it again changes nothing; and no event,
    of this or another node, is set or cleared by it. *)
Theorem event_created_once (self : node_id) (fr : frame) :
  let fr' := (event self fr).2 in
  (event self fr).1 = Returns tt
  ∧ event self fr' = (Returns tt, fr')
  ∧ (∀ x, is_set (nodes (the_world fr')) x = is_set (nodes (the_world fr)) x)
  ∧ (∀ n, nodes (the_world fr) !! self = Some n →
          ∃ n' b, nodes (the_world fr') !! self = Some n' ∧ _event n' = Some b
                  ∧ set_event None n' = set_event None n).
Proof.
  cbv zeta. cbv [event modify]. cbn [fst snd].
  split; [done|]. split; [|split].
  - unfold in_world, set_nodes. simpl. do 3 f_equal.
    apply map_eq. intros x. destruct (decide (x = self)) as [->|Hne].
    + rewrite !lookup_alter_eq. destruct (nodes (the_world fr) !! self) as [n|]; [|done].
      simpl. f_equal. by destruct (_event n) eqn:E; simpl; rewrite ?E.
    + by rewrite !lookup_alter_ne.
  - intros x. unfold is_set. simpl. destruct (decide (x = self)) as [->|Hne].
    + rewrite lookup_alter_eq. destruct (nodes (the_world fr) !! self) as [n|]; [|done].
      simpl. by destruct (_event n) eqn:E; simpl; rewrite ?E.
    + by rewrite lookup_alter_ne.
  - intros n Hn. simpl. rewrite lookup_alter_eq, Hn. simpl.
    destruct (_event n) as [b|] eqn:E.
    + by exists n, b.
    + eexists _, false. split; [done|]. split; [done|]. by destruct n.
Qed.

End ConstructionMore.

(** The constructor of [middle_node], with [start_node] as its parent. *)
Lemma init_effect_witness :
  Tests.node1.2 !! Tests.node2.1 = None
  ∧ children_of Tests.node2.2 Tests.node2.1 = []
  ∧ Tests.node2.2 !! Tests.node1.1
    = with_child Tests.node2.1 <$> Tests.node1.2 !! Tests.node1.1
  ∧ Tests.node2.2 !! ComputationalGraph.root Tests.graph.1
    = Tests.node1.2 !! ComputationalGraph.root Tests.graph.1.
Proof.
  destruct (init_effect Tests.node1.2 "middle_node" (Some [Tests.node1.1])
              None (Some Tests.sync_task_executor)
              (Some (Tests.kwargs "middle_node" "progressing")) None)
    as (H1 & H2 & H3 & H4).
  { intros p ->%list_elem_of_singleton. vm_compute. by eexists. }
  split; [exact H1|]. split; [|split].
  - unfold children_of, Tests.node2. by rewrite H2.
  - apply H3. by left.
  - apply H4.
    + intros E. vm_compute in E. discriminate E.
    + intros E%list_elem_of_singleton. vm_compute in E. discriminate E.
Defined.

(** The heap of [test_linear_graph_execution] before the root is linked:
    the root, then [start_node], then [middle_node] under it. *)
Lemma init_keeps_acyclic_witness : acyclic Tests.node2.2.
Proof.
  apply (init_keeps_acyclic Tests.node1.2 "middle_node" (Some [Tests.node1.1])).
  { intros p ->%list_elem_of_singleton. vm_compute. by eexists. }
  apply (init_keeps_acyclic Tests.graph.2 "start_node" (Some [])).
  { intros p Hp. by apply elem_of_nil in Hp. }
  apply (init_keeps_acyclic ∅ "root" None).
  { intros p Hp. by apply elem_of_nil in Hp. }
  apply acyclic_empty.
Defined.

(** ** More properties of the run of a node *)

(** *** What a run preserves

    [R] is any relation between worlds that the steps of a run respect. *)

Section Preserved.
Import ComputationalNode.
Variable R : world → world → Prop.
Hypothesis R_refl : ∀ w, R w w.
Hypothesis R_trans : ∀ w1 w2 w3, R w1 w2 → R w2 w3 → R w1 w3.
Hypothesis R_tick : ∀ w, R w (tick w).
Hypothesis R_event : ∀ x fr, R (the_world fr) (the_world (event x fr).2).
Hypothesis R_event_set : ∀ x fr, R (the_world fr) (the_world (event_set x fr).2).
Variable loop : event_loop.
Hypothesis R_loop : ∀ w w', resumes loop w w' → R w w'.

Lemma preserves_ret {A} (a : A) : preserves R (ret a).
Proof. intros fr. apply R_refl. Qed.

Lemma preserves_eval {A} (o : outcome A) : preserves R (eval o).
Proof. intros fr. apply R_refl. Qed.

Lemma preserves_bind {A B} (c : M frame A) (k : A → M frame B) :
  preserves R c → (∀ a, preserves R (k a)) → preserves R (bind c k).
Proof.
  intros Hc Hk fr. unfold bind. specialize (Hc fr).
  destruct (c fr) as [[a|e|] fr']; simpl in *; [|done..].
  eapply R_trans; [done|]. apply Hk.
Qed.

Lemma preserves_try_except {A} (body : M frame A) handler :
  preserves R body → (∀ e, preserves R (handler e)) →
  preserves R (try_except body handler).
Proof.
  intros Hb Hh fr. unfold try_except. specialize (Hb fr).
  destruct (body fr) as [[a|e|] fr']; simpl in *; [done| |done].
  destruct (exn_caught e); [|done].
  eapply R_trans; [done|]. apply Hh.
Qed.

Lemma preserves_try_finally {A} (body : M frame A) finalizer :
  preserves R body → preserves R finalizer →
  preserves R (try_finally body finalizer).
Proof.
  intros Hb Hf fr. unfold try_finally. specialize (Hb fr).
  destruct (body fr) as [[a|e|] fr']; simpl in *; [| |done];
    specialize (Hf fr'); destruct (finalizer fr') as [[u|e'|] fr''];
    simpl in *; by eapply R_trans.
Qed.

Lemma preserves_for_each {A} (xs : list A) body :
  (∀ x, preserves R (body x)) → preserves R (for_each xs body).
Proof.
  intros Hb. induction xs as [|x xs IH]; simpl; [apply preserves_ret|].
  apply preserves_bind; [apply Hb | by intros _].
Qed.

Lemma preserves_perf_stats f : preserves R (modify (set_perf_stats f)).
Proof. intros fr. apply R_refl. Qed.

Lemma preserves_return_perf_stats : preserves R return_perf_stats.
Proof. intros fr. apply R_refl. Qed.

Lemma preserves_time_time : preserves R time_time.
Proof. intros fr. apply R_tick. Qed.

Lemma preserves_await {A} (awaited : world → outcome A * world) :
  (∀ w, resumes loop w (awaited w).2) → preserves R (await awaited).
Proof.
  intros Hr fr. unfold await. specialize (Hr (the_world fr)).
  apply R_loop in Hr. by destruct (awaited (the_world fr)).
Qed.

Lemma preserves_await_parents ps : preserves R (await_parents loop ps).
Proof.
  destruct ps as [|p ps]; [apply preserves_ret|].
  unfold await_parents. apply preserves_bind.
  - apply preserves_for_each. intros x fr. apply R_event.
  - intros _. apply (preserves_await (wait_parents loop (p :: ps))).
    intros w. left. by eexists.
Qed.

Lemma preserves_dispatch n record : preserves R (dispatch loop n record).
Proof.
  unfold dispatch. destruct (exe_function n) as [f|]; [|apply preserves_ret].
  destruct (iscoroutinefunction f);
    (apply preserves_bind; [|intros _; apply preserves_ret]);
    apply preserves_await; intros w.
  - right. left. by eexists _, _, _.
  - right. right. by eexists _, _, _.
Qed.

Lemma preserves_execute n record t_awaiting_parents t1 :
  preserves R (execute loop n record t_awaiting_parents t1).
Proof.
  unfold execute, setitem.
  repeat (apply preserves_bind; [|intros ?]);
    auto using preserves_dispatch, preserves_perf_stats, preserves_time_time,
      preserves_return_perf_stats.
Qed.

Lemma preserves_condition_gate n record rest :
  preserves R rest → preserves R (condition_gate n record rest).
Proof.
  intros Hrest. unfold condition_gate. destruct (exe_condition n) as [cond|]; [|done].
  apply preserves_bind; [intros fr; apply R_refl|].
  intros [|]; simpl; [done|].
  apply preserves_bind; [apply preserves_perf_stats
                        | intros _; apply preserves_return_perf_stats].
Qed.

Lemma preserves_feature_flag_gate n fm rest :
  preserves R rest → preserves R (feature_flag_gate n fm rest).
Proof.
  intros Hrest. unfold feature_flag_gate.
  destruct (feature_flag n) as [[|c flag]|]; [done| |done].
  apply preserves_bind; [apply preserves_eval|].
  intros [|]; simpl; [done|].
  apply preserves_bind; [apply preserves_perf_stats
                        | intros _; apply preserves_return_perf_stats].
Qed.

Lemma preserves_run self record fm : preserves R (run self record fm loop).
Proof.
  unfold run. apply preserves_bind.
  { intros fr. unfold deref. destruct (nodes (the_world fr) !! self); apply R_refl. }
  intros n. apply preserves_bind; [apply preserves_perf_stats|]. intros _.
  apply preserves_try_finally; [|intros fr; apply R_event_set].
  apply preserves_try_except.
  - unfold attempt.
    apply preserves_bind; [apply preserves_time_time | intros t0].
    apply preserves_bind; [apply preserves_await_parents | intros _].
    apply preserves_bind; [apply preserves_time_time | intros t].
    apply preserves_bind; [apply preserves_time_time | intros t1].
    apply preserves_feature_flag_gate, preserves_condition_gate, preserves_execute.
  - intros e. unfold on_exception.
    apply preserves_bind; [apply preserves_eval | intros message].
    apply preserves_bind; [apply preserves_perf_stats
                          | intros _; apply preserves_return_perf_stats].
Qed.

End Preserved.

Lemma structure_alter_event (f : node → node) (x : node_id) (h : heap) :
  (∀ n, set_event None (f n) = set_event None n) →
  structure (alter f x h) = structure h.
Proof.
  intros Hf. unfold structure. apply map_eq. intros y.
  rewrite !lookup_fmap. destruct (decide (x = y)) as [->|Hne].
  - rewrite lookup_alter_eq. destruct (h !! y); simpl; [|done]. by rewrite Hf.
  - by rewrite lookup_alter_ne.
Qed.

(** X13.  A run of a node changes nothing of the graph but events: under an
    event loop that touches only events while the run is suspended (the
    work function, the predicate and the flag manager act on what they are
    passed), every node has, after the run, the name, the parents, the
    children, the flag, the work function, its arguments and the predicate
    it had before, and no node is created or destroyed, however the run
    ends. *)
Theorem run_changes_only_events self record fm loop fr :
  only_events loop →
  structure (nodes (the_world (ComputationalNode.run self record fm loop fr).2))
  = structure (nodes (the_world fr)).
Proof.
  intros Hloop.
  apply (preserves_run (fun w w' => structure (nodes w') = structure (nodes w))).
  - done.
  - intros w1 w2 w3 H1 H2. by rewrite H2.
  - done.
  - intros x fr'. simpl. apply structure_alter_event. intros n. by destruct (_event n).
  - intros x fr'. cbn. rewrite !structure_alter_event; [done|intros n..].
    + by destruct (_event n).
    + done.
  - exact Hloop.
Qed.

Lemma is_set_alter_mono (f : node → node) (x y : node_id) (h : heap) :
  (∀ n, default false (_event n) = true → default false (_event (f n)) = true) →
  is_set h y = true → is_set (alter f x h) y = true.
Proof.
  intros Hf. unfold is_set. destruct (decide (x = y)) as [->|Hne].
  - rewrite lookup_alter_eq. destruct (h !! y); simpl; [apply Hf|done].
  - by rewrite lookup_alter_ne.
Qed.

(** X14.  A run of a node never clears an event: under an event loop that
    clears none while the run is suspended, an event that is set before the
    run is set after it, however the run ends. *)
Theorem run_never_clears_events self record fm loop fr x :
  keeps_events loop →
  is_set (nodes (the_world fr)) x = true →
  is_set (nodes (the_world (ComputationalNode.run self record fm loop fr).2)) x = true.
Proof.
  intros Hloop.
  apply (preserves_run (fun w w' => is_set (nodes w) x = true → is_set (nodes w') x = true)).
  - done.
  - intros w1 w2 w3 H1 H2 H. by apply H2, H1.
  - done.
  - intros y fr'. simpl. apply is_set_alter_mono. intros n.
    destruct (_event n) as [b|] eqn:E; simpl; [by rewrite E|done].
  - intros y fr'. cbn. intros H. apply is_set_alter_mono; [done|].
    revert H. apply is_set_alter_mono. intros n.
    destruct (_event n) as [b|] eqn:E; simpl; [by rewrite E|done].
  - intros w w' Hr. by apply Hloop.
Qed.

(** *** The output of a run *)

Section NodeOutput.
Import ComputationalNode.

Lemma execute_output loop n record t_awaiting_parents t1 fr :
  out_of (execute loop n record t_awaiting_parents t1 fr)
  = work_output loop record n (the_world fr).
Proof.
  unfold out_of, execute, work_output.
  destruct (exe_function n) as [f|] eqn:Hf.
  - rewrite (dispatch_unfold loop n record f Hf). cbv [bind await].
    by destruct (await_work loop f record (exe_kwargs n) (the_world fr))
      as [[v|e|] w].
  - unfold dispatch. by rewrite Hf.
Qed.

Lemma condition_gate_output n record rest fr :
  out_of (condition_gate n record rest fr)
  = match predicate_outcome record n (output (the_world fr)) with
    | None | Some (Returns true) => out_of (rest fr)
    | _ => output (the_world fr)
    end.
Proof.
  unfold out_of, condition_gate, predicate_outcome.
  destruct (exe_condition n) as [cond|]; [|done].
  cbv [bind]. destruct (cond record (output (the_world fr))) as [[|]|e|]; done.
Qed.

Lemma feature_flag_gate_output n fm rest fr :
  out_of (feature_flag_gate n fm rest fr)
  = match flag_outcome fm n with
    | None | Some (Returns true) => out_of (rest fr)
    | _ => output (the_world fr)
    end.
Proof.
  unfold out_of, feature_flag_gate, flag_outcome.
  destruct (feature_flag n) as [[|c flag]|]; [done| |done].
  cbv [bind eval]. destruct (call_is_enabled fm (String c flag)) as [[|]|e|]; done.
Qed.

Lemma gates_output loop n fm record t_awaiting_parents t1 fr w :
  the_world fr = at_gates w →
  out_of (feature_flag_gate n fm
            (condition_gate n record (execute loop n record t_awaiting_parents t1)) fr)
  = if reaches_work (gates_path loop fm record n w)
    then work_output loop record n (at_gates w)
    else output w.
Proof.
  intros Hw.
  rewrite feature_flag_gate_output, condition_gate_output, execute_output, Hw.
  change (output (at_gates w)) with (output w).
  unfold gates_path.
  destruct (flag_outcome fm n) as [[[|]|e|]|]; try done.
  all: destruct (predicate_outcome record n _) as [[[|]|e|]|]; try done.
  all: unfold work_output, work_outcome; destruct (exe_function n) as [f|]; try done.
  all: by destruct (await_work loop f record _ _) as [[v|e|] w2].
Qed.

Lemma attempt_output n record fm loop w w' :
  after_barrier loop n w = Returns w' →
  out_of (attempt n record fm loop {| the_world := w; perf_stats := ∅ |})
  = if reaches_work (gates_path loop fm record n w')
    then work_output loop record n (at_gates w') else output w'.
Proof.
  unfold attempt, after_barrier. unfold bind at 1. unfold time_time at 1.
  unfold bind at 1.
  change (in_world tick {| the_world := w; perf_stats := ∅ |})
    with {| the_world := tick w; perf_stats := ∅ |}.
  destruct (await_parents loop (parents n) _) as [[[]|e|] fr3]; [|done..].
  intros [= <-]. cbv [bind time_time].
  by apply (gates_output loop n fm record _ _ (in_world tick (in_world tick fr3))).
Qed.

Lemma on_exception_output n e fr : out_of (on_exception n e fr) = output (the_world fr).
Proof.
  unfold out_of, on_exception. cbv [bind eval]. by destruct (str e).
Qed.

(** A run writes nothing to [output] and undoes nothing: [output] after
    the run is as the last [await] of the run has left it. *)
Lemma run_output self n record fm loop fr w' :
  nodes (the_world fr) !! self = Some n →
  after_barrier loop n (the_world fr) = Returns w' →
  out_of (run self record fm loop fr)
  = if reaches_work (gates_path loop fm record n w')
    then work_output loop record n (at_gates w') else output w'.
Proof.
  intros Hn Hb. rewrite (run_unfold _ _ _ _ _ _ Hn).
  rewrite <- (attempt_output n record fm loop (the_world fr) w' Hb).
  unfold out_of, try_finally, try_except.
  destruct (attempt n record fm loop _) as [[m|e|] fra]; simpl; [done| |done].
  destruct (exn_caught e); [|done].
  pose proof (on_exception_output n e fra) as Ho. unfold out_of in Ho.
  by destruct (on_exception n e fra) as [[m|e'|] fr'].
Qed.

(** X11.  A gate that skips the node returns before the work function is
    called.  When the barrier is passed and the flag is disabled, or the
    flag gate passes and the predicate is false, the run returns the
    metrics of the skip, whatever the work function would do, and [output]
    is as the barrier left it.  A disabled flag skips before the predicate
    is evaluated. *)
Theorem skipped_run_leaves_output self n record fm loop fr w' :
  nodes (the_world fr) !! self = Some n →
  after_barrier loop n (the_world fr) = Returns w' →
  flag_outcome fm n = Some (Returns false)
  ∨ ((flag_outcome fm n = None ∨ flag_outcome fm n = Some (Returns true))
     ∧ predicate_outcome record n (output w') = Some (Returns false)) →
  (∃ gate, (run self record fm loop fr).1 = Returns {[ name n +:+ gate := "False" ]})
  ∧ output (the_world (run self record fm loop fr).2) = output w'.
Proof.
  intros Hn Hb Hgate.
  pose proof (run_result self n record fm loop fr Hn) as Hr. simpl in Hr.
  pose proof (run_output self n record fm loop fr w' Hn Hb) as Ho.
  unfold out_of in Ho. unfold path_taken in Hr. rewrite Hb in Hr.
  assert (gates_path loop fm record n w' = FlagSkip
          ∨ gates_path loop fm record n w' = PredicateSkip) as [E|E].
  { unfold gates_path. destruct Hgate as [->|[[->| ->] ->]]; auto. }
  - rewrite E in Hr, Ho. split; [|exact Ho].
    exists ".feature_flag". by rewrite Hr, insert_empty_singleton.
  - rewrite E in Hr, Ho. split; [|exact Ho].
    exists ".exe_condition". by rewrite Hr, insert_empty_singleton.
Qed.

(** X12.  A run itself writes nothing to [output] and undoes nothing of
    what was written while it awaited the work function.  When the barrier
    and the gates are passed, [output] after the run is [output] as it is
    when the [await] of the work function ends, with what the work function
    and the tasks that ran meanwhile have written: also when the [await]
    raises, in which case the run reports the exception as it does any
    other, and also when it never completes. *)
Theorem run_leaves_output_as_awaited self n f record fm loop fr w' :
  nodes (the_world fr) !! self = Some n →
  exe_function n = Some f →
  after_barrier loop n (the_world fr) = Returns w' →
  flag_outcome fm n = None ∨ flag_outcome fm n = Some (Returns true) →
  predicate_outcome record n (output w') = None
  ∨ predicate_outcome record n (output w') = Some (Returns true) →
  let awaited := await_work loop f record (exe_kwargs n) (at_gates w') in
  output (the_world (run self record fm loop fr).2) = output awaited.2
  ∧ match awaited.1 with
    | Returns _ => ∃ m, (run self record fm loop fr).1 = Returns m
    | Raises e =>
        (run self record fm loop fr).1
        = if exn_caught e
          then match str e with
               | Returns message =>
                   Returns {[ name n +:+ ".exception" := message ]}
               | Raises e' => Raises e'
               | Hangs => Hangs
               end
          else Raises e
    | Hangs => (run self record fm loop fr).1 = Hangs
    end.
Proof.
  intros Hn Hf Hb Hflag Hcond awaited.
  pose proof (run_result self n record fm loop fr Hn) as Hr. simpl in Hr.
  pose proof (run_output self n record fm loop fr w' Hn Hb) as Ho.
  unfold out_of in Ho. unfold path_taken in Hr. rewrite Hb in Hr.
  assert (gates_path loop fm record n w'
          = match awaited.1 with
            | Returns _ => Success
            | Raises e => Failure Work e
            | Hangs => Unfinished Work
            end) as E.
  { unfold gates_path, work_outcome. rewrite Hf. fold awaited.
    by destruct Hflag as [-> | ->], Hcond as [-> | ->]. }
  rewrite E in Hr, Ho. unfold work_output in Ho. rewrite Hf in Ho. fold awaited in Ho.
  split.
  - rewrite Ho. by destruct (awaited.1).
  - destruct (awaited.1) as [v|e|]; [| |done].
    + destruct Hr as (a & b & ->). by eexists.
    + rewrite Hr. destruct (exn_caught e); [|done].
      destruct (str e); [|done..]. by rewrite insert_empty_singleton.
Qed.

(** X9.  A node without parents does not enter the barrier: its run is the
    same, in its result and in the world it leaves, under two event loops
    that await the work functions alike, whatever they do at the barrier
    and at the gathering of tasks. *)
Theorem run_without_parents_skips_barrier self n record fm loop1 loop2 fr :
  nodes (the_world fr) !! self = Some n →
  parents n = [] →
  create_task loop1 = create_task loop2 →
  to_thread loop1 = to_thread loop2 →
  run self record fm loop1 fr = run self record fm loop2 fr.
Proof.
  intros Hn Hp Htask Hthread. rewrite !(run_unfold _ _ _ _ _ _ Hn).
  unfold attempt, execute, dispatch. by rewrite Hp, Htask, Hthread.
Qed.

(** X10.  A node whose feature flag is [None] or the empty string does not
    consult the flag manager: its run is the same with every manager, also
    with one whose [is_enabled] raises or never returns. *)
Theorem run_without_flag_ignores_manager self n record fm1 fm2 loop fr :
  nodes (the_world fr) !! self = Some n →
  feature_flag n = None ∨ feature_flag n = Some "" →
  run self record fm1 loop fr = run self record fm2 loop fr.
Proof.
  intros Hn Hf. rewrite !(run_unfold _ _ _ _ _ _ Hn).
  unfold attempt, feature_flag_gate. by destruct Hf as [-> | ->].
Qed.

(** X15.  A node whose feature flag holds an upper-case letter is always
    skipped: with a flag manager that the updater thread has filled from
    whatever environments, once the barrier is passed the run returns
    ["{name}.feature_flag"] with ["False"] and leaves [output] as it was. *)
Theorem uppercase_flag_always_skipped self n flag snapshots mgr record loop fr w' :
  nodes (the_world fr) !! self = Some n →
  feature_flag n = Some flag →
  PyStr.lower flag ≠ flag →
  FeatureFlagMgr.updater FeatureFlagMgr.__init__ snapshots = Returns mgr →
  after_barrier loop n (the_world fr) = Returns w' →
  (run self record (flag_manager_of mgr) loop fr).1
  = Returns {[ name n +:+ ".feature_flag" := "False" ]}
  ∧ output (the_world (run self record (flag_manager_of mgr) loop fr).2) = output w'.
Proof.
  intros Hn Hf Hflag Hmgr Hb.
  pose proof (run_result self n record (flag_manager_of mgr) loop fr Hn) as Hr.
  pose proof (run_output self n record (flag_manager_of mgr) loop fr w' Hn Hb) as Ho.
  simpl in Hr. unfold out_of in Ho. unfold path_taken in Hr. rewrite Hb in Hr.
  assert (gates_path loop (flag_manager_of mgr) record n w' = FlagSkip) as E.
  { unfold gates_path, flag_outcome. rewrite Hf.
    destruct flag as [|c flag]; [done|]. simpl.
    rewrite lowercase_keys_disabled; [done| |done].
    exact (updater_lowercase_keys snapshots FeatureFlagMgr.__init__ mgr
             init_lowercase_keys Hmgr). }
  rewrite E in Hr, Ho. split; [|exact Ho].
  by rewrite Hr, insert_empty_singleton.
Qed.

End NodeOutput.

Lemma alone_only_events : only_events Serial.alone.
Proof. intros w w' Hr. by rewrite (alone_resumes w w' Hr). Qed.

Lemma alone_keeps_events : keeps_events Serial.alone.
Proof. intros w w' x Hr. by rewrite (alone_resumes w w' Hr). Qed.

(** [test_basic_node]: the run of the node leaves the node as constructed,
    up to its event. *)
Lemma run_changes_only_events_witness :
  structure (nodes (the_world
     (ComputationalNode.run Tests.basic_node.1 ∅ Tests.no_flags Serial.alone
        (Tests.frame_of Tests.basic_node.2)).2))
  = structure Tests.basic_node.2.
Proof.
  apply (run_changes_only_events Tests.basic_node.1 ∅ Tests.no_flags Serial.alone
           (Tests.frame_of Tests.basic_node.2) alone_only_events).
Defined.

(** The chain of [test_linear_graph_execution]: once [start_node] has run,
    its event is set, and it is still set after the run of [middle_node]. *)
Lemma run_never_clears_events_witness :
  is_set (nodes (the_world
     (ComputationalNode.run Tests.node2.1 ∅ Tests.no_flags Serial.alone
        (ComputationalNode.run Tests.node1.1 ∅ Tests.no_flags Serial.alone
           (Tests.frame_of Tests.linear)).2).2)) Tests.node1.1 = true.
Proof.
  apply (run_never_clears_events Tests.node2.1 ∅ Tests.no_flags Serial.alone
           _ Tests.node1.1 alone_keeps_events).
  vm_compute. reflexivity.
Defined.

(** [test_basic_node] under a loop whose barrier never opens. *)
Lemma run_without_parents_skips_barrier_witness :
  ComputationalNode.run Tests.basic_node.1 ∅ Tests.no_flags Serial.alone
    (Tests.frame_of Tests.basic_node.2)
  = ComputationalNode.run Tests.basic_node.1 ∅ Tests.no_flags
      Scenarios.closed_barrier (Tests.frame_of Tests.basic_node.2).
Proof.
  apply (run_without_parents_skips_barrier Tests.basic_node.1 _ ∅ Tests.no_flags
           Serial.alone Scenarios.closed_barrier (Tests.frame_of Tests.basic_node.2)
           eq_refl eq_refl eq_refl eq_refl).
Defined.

(** [test_basic_node] with a flag manager that raises. *)
Lemma run_without_flag_ignores_manager_witness :
  ComputationalNode.run Tests.basic_node.1 ∅ Tests.no_flags Serial.alone
    (Tests.frame_of Tests.basic_node.2)
  = ComputationalNode.run Tests.basic_node.1 ∅ Scenarios.broken_flags Serial.alone
      (Tests.frame_of Tests.basic_node.2).
Proof.
  apply (run_without_flag_ignores_manager Tests.basic_node.1 _ ∅ Tests.no_flags
           Scenarios.broken_flags Serial.alone (Tests.frame_of Tests.basic_node.2)
           eq_refl (or_introl eq_refl)).
Defined.

(** [test_conditional_execution], first run: the predicate is false and
    the work function has written nothing. *)
Lemma skipped_run_leaves_output_witness :
  (∃ gate,
     (ComputationalNode.run Tests.conditional_node.1 ∅ Tests.no_flags Serial.alone
        (Tests.frame_of Tests.conditional_node.2)).1
     = Returns {[ "conditional_node" +:+ gate := "False" ]})
  ∧ output (the_world
      (ComputationalNode.run Tests.conditional_node.1 ∅ Tests.no_flags Serial.alone
         (Tests.frame_of Tests.conditional_node.2)).2) = ∅.
Proof.
  pose proof (skipped_run_leaves_output Tests.conditional_node.1 _ ∅ Tests.no_flags
                Serial.alone (Tests.frame_of Tests.conditional_node.2) _
                eq_refl eq_refl (or_intror (conj (or_introl eq_refl) eq_refl))) as H.
  exact H.
Defined.

(** A work function that writes and then raises, awaited alone: the entry
    is in [output] and the exception in the metrics. *)
Lemma run_leaves_output_as_awaited_witness :
  output (the_world
    (ComputationalNode.run Scenarios.half_done_node.1 ∅ Tests.no_flags Serial.alone
       (Tests.frame_of Scenarios.half_done_node.2)).2) = {[ "partial" := VInt 1 ]}
  ∧ (ComputationalNode.run Scenarios.half_done_node.1 ∅ Tests.no_flags Serial.alone
       (Tests.frame_of Scenarios.half_done_node.2)).1
    = Returns {[ "half_done.exception" := "late failure" ]}.
Proof.
  pose proof (run_leaves_output_as_awaited Scenarios.half_done_node.1 _ _ ∅
                Tests.no_flags Serial.alone
                (Tests.frame_of Scenarios.half_done_node.2) _
                eq_refl eq_refl eq_refl (or_introl eq_refl) (or_introl eq_refl)) as H.
  exact H.
Defined.

(** The environment of [FeatureFlagMgrTest] enables [experiment]; the node
    behind [Experiment] is skipped all the same. *)
Lemma uppercase_flag_always_skipped_witness :
  ∃ mgr,
    FeatureFlagMgr.updater FeatureFlagMgr.__init__ [Scenarios.environ] = Returns mgr
    ∧ FeatureFlagMgr.is_enabled mgr "experiment" = true
    ∧ (ComputationalNode.run Scenarios.shouting_node.1 ∅ (flag_manager_of mgr)
         Serial.alone (Tests.frame_of Scenarios.shouting_node.2)).1
      = Returns {[ "shouting_node.feature_flag" := "False" ]}.
Proof.
  eexists. split; [vm_compute; reflexivity|]. split; [vm_compute; reflexivity|].
  refine (proj1 (uppercase_flag_always_skipped Scenarios.shouting_node.1 _
                   "Experiment" [Scenarios.environ] _ ∅ Serial.alone
                   (Tests.frame_of Scenarios.shouting_node.2) _
                   eq_refl eq_refl _ _ eq_refl)).
  - intros E. vm_compute in E. discriminate E.
  - vm_compute. reflexivity.
Defined.

(** ** More properties of the traversal and of the run of a graph *)

Section TraversalMore.
Import ComputationalGraph.

Lemma visit_tasks_prefix st c : tasks st `prefix_of` tasks (visit st c).
Proof.
  unfold visit. case_bool_decide; [done|]. simpl. by apply prefix_app_r.
Qed.

Lemma foldl_visit_tasks_prefix cs : ∀ st, tasks st `prefix_of` tasks (foldl visit st cs).
Proof.
  induction cs as [|c cs IH]; intros st; simpl; [done|].
  etrans; [apply (visit_tasks_prefix st c) | apply IH].
Qed.

(** The loop only appends to the list of tasks. *)
Lemma bfs_loop_tasks_prefix h fuel : ∀ st st',
  bfs_loop fuel h st = Some st' → tasks st `prefix_of` tasks st'.
Proof.
  induction fuel as [|fuel IH]; intros st st'; simpl.
  - destruct (queue st); [by intros [= <-] | done].
  - destruct (queue st) as [|n q]; [by intros [= <-]|].
    intros H%IH. etrans; [|exact H].
    apply (foldl_visit_tasks_prefix _
             {| visited := visited st; queue := q; tasks := tasks st |}).
Qed.

(** Children that are not visited yet are visited, queued and scheduled in
    the order of the iteration. *)
Lemma foldl_visit_fresh cs : ∀ st,
  NoDup cs → (∀ c, c ∈ cs → c ∉ visited st) →
  foldl visit st cs
  = {| visited := visited st ++ cs; queue := queue st ++ cs; tasks := tasks st ++ cs |}.
Proof.
  induction cs as [|c cs IH]; intros st Hnd Hfresh; simpl.
  - rewrite !app_nil_r. by destruct st.
  - apply NoDup_cons in Hnd as [Hc Hnd].
    unfold visit at 2. rewrite bool_decide_eq_false_2 by (apply Hfresh; by left).
    rewrite IH; [|done|].
    + simpl. by rewrite <- !app_assoc.
    + intros c' Hc'. simpl. rewrite elem_of_app, list_elem_of_singleton.
      intros [Hv| ->]; [|done]. apply (Hfresh c'); [by right | done].
Qed.

(** The loop stops on an empty queue. *)
Lemma bfs_loop_done h fuel st : queue st = [] → bfs_loop fuel h st = Some st.
Proof. intros Hq. destruct fuel; simpl; by rewrite Hq. Qed.

(** X16.  The children of the root are scheduled first, in the iteration
    order of the set of children: when the root is not its own child, the
    list of tasks that [bfs] returns begins with the children of the
    root. *)
Theorem bfs_schedules_children_first (h : heap) (root : node_id) :
  NoDup (children_of h root) →
  root ∉ children_of h root →
  ∃ st, bfs h root = Some st ∧ children_of h root `prefix_of` tasks st.
Proof.
  intros Hnd Hroot. destruct (bfs_ends h root) as (dl & st & Hrun & _).
  exists st. split; [exact Hrun|].
  unfold bfs in Hrun. cbn [bfs_loop queue visited tasks] in Hrun.
  rewrite foldl_visit_fresh in Hrun; [|done|].
  - by apply bfs_loop_tasks_prefix in Hrun.
  - intros c Hc. simpl. rewrite list_elem_of_singleton. by intros ->.
Qed.

(** X17.  A run of the graph starts from an [output] of its own: the run
    is the same whatever [output] held before.  When the gathering returns,
    the [output] that the run returns is the one that the tasks have
    written to, as it is when the gathering ends, and the nodes are those
    that the gathering leaves. *)
Theorem graph_run_returns_shared_output self record fm loop fr :
  (∀ out, run self record fm loop (in_world (set_output out) fr)
          = run self record fm loop fr)
  ∧ ∃ st, bfs (nodes (the_world fr)) (root self) = Some st
      ∧ let gathered :=
          gather_tasks loop (tasks st) (tick (set_output ∅ (the_world fr))) in
        ∀ measurements, gathered.1 = Returns measurements →
          ∃ perf_stats,
            (run self record fm loop fr).1 = Returns (perf_stats, output gathered.2)
            ∧ nodes (the_world (run self record fm loop fr).2) = nodes gathered.2.
Proof.
  split; [done|].
  destruct (bfs_ends (nodes (the_world fr)) (root self)) as (dl & st & Hbfs & _).
  exists st. split; [exact Hbfs|].
  unfold run. cbv [bind modify time_time]. simpl. rewrite Hbfs.
  change {| nodes := nodes (the_world fr); output := ∅;
            clock := clock (the_world fr); ticks := S (ticks (the_world fr)) |}
    with (tick (set_output ∅ (the_world fr))).
  intros measurements.
  destruct (gather_tasks loop (tasks st) _) as [[ms|e|] w]; simpl; [|done..].
  intros _. rewrite for_each_update. simpl. by eexists.
Qed.

(** X18.  A graph with nothing under its root, such as a graph that was
    just constructed, creates no task.  Under an event loop on which the
    gathering of no task returns at once, its run returns the metrics that
    hold ["dag.execution"], with the time between the two readings of the
    clock, and nothing else, and an empty [output]; the nodes are as they
    were. *)
Theorem childless_root_runs_nothing self record fm loop fr :
  children_of (nodes (the_world fr)) (root self) = [] →
  (∀ w, gather_tasks loop [] w = (Returns [], w)) →
  (run self record fm loop fr).1
  = Returns ({[ "dag.execution" :=
                  fmt3 (clock (the_world fr) (S (ticks (the_world fr)))
                        - clock (the_world fr) (ticks (the_world fr))) ]}, ∅)
  ∧ nodes (the_world (run self record fm loop fr).2) = nodes (the_world fr).
Proof.
  intros Hc Hg. unfold run. cbv [bind modify time_time]. simpl.
  unfold bfs. cbn [bfs_loop queue]. rewrite Hc. cbn [foldl].
  rewrite bfs_loop_done by done. cbn [tasks].
  rewrite Hg. simpl. by rewrite insert_empty_singleton.
Qed.

End TraversalMore.

(** The two nodes under the root of the graph of the twins are scheduled
    in the order of the children of the root. *)
Lemma bfs_schedules_children_first_witness :
  ∃ st, ComputationalGraph.bfs Tests.twins (ComputationalGraph.root Tests.twin_graph.1)
        = Some st
        ∧ [Tests.twin1.1; Tests.twin2.1] `prefix_of` ComputationalGraph.tasks st.
Proof.
  apply (bfs_schedules_children_first Tests.twins
           (ComputationalGraph.root Tests.twin_graph.1)).
  - apply (bool_decide_unpack _). vm_compute. exact I.
  - apply (bool_decide_unpack _). vm_compute. exact I.
Defined.

(** The graph of [test_linear_graph_execution] before any node is added. *)
Lemma childless_root_runs_nothing_witness :
  (ComputationalGraph.run Tests.graph.1 ∅ Tests.no_flags
     (Serial.loop ∅ Tests.no_flags) (Tests.frame_of Tests.graph.2)).1
  = Returns ({[ "dag.execution" := "0.001" ]}, ∅)
  ∧ nodes (the_world
      (ComputationalGraph.run Tests.graph.1 ∅ Tests.no_flags
         (Serial.loop ∅ Tests.no_flags) (Tests.frame_of Tests.graph.2)).2)
    = Tests.graph.2.
Proof.
  apply (childless_root_runs_nothing Tests.graph.1 ∅ Tests.no_flags
           (Serial.loop ∅ Tests.no_flags) (Tests.frame_of Tests.graph.2)).
  - reflexivity.
  - intros w. reflexivity.
Defined.
